(** * webscrapper.py: field extraction, record building and post-processing

    A shallow embedding of [src/webscrapper.py].

    - Text is modelled as [string]; a character [c : ascii] stands for the
      code point [N_of_ascii c], so the model covers text whose code points
      lie below 256.  On that range the character classes below are the ones
      Python uses for [str] patterns and for [str.strip].
    - The regular expressions of the source are kept as syntax trees and run
      by a backtracking matcher with Python's priorities (leftmost start,
      first alternative first, greedy repetition).
    - A parsed document (the [BeautifulSoup] object) is a forest of text
      nodes and tags; comments, processing instructions and the like are
      left out.  Parsing HTML text into that forest is the parser library's
      business and is not modelled: [parse_vehicle] takes the forest.
    - The post-processing stage works on a table of strings with named
      columns, the value [pd.read_csv(..., dtype=str).fillna("")] yields. *)

From Stdlib Require Import Bool Arith List Lia NArith Ascii String.
From Stdlib Require Import Sorted Permutation.
From Stdlib Require OrderedTypeEx.
Import ListNotations.

Local Open Scope string_scope.
Local Open Scope list_scope.

(** ** Characters *)

Module Chars.

Definition code (c : ascii) : N := N_of_ascii c.

Definition in_range (lo hi : N) (c : ascii) : bool :=
  (N.leb lo (code c) && N.leb (code c) hi)%bool.

(** [str.isspace], which is also the class [\s] of a [str] pattern:
    TAB..CR, FS..US, SPACE, NEL and NBSP. *)
Definition is_space (c : ascii) : bool :=
  in_range 9 13 c || in_range 28 32 c
  || N.eqb (code c) 133 || N.eqb (code c) 160.

(** The class [\d]: the decimal digits. *)
Definition is_digit (c : ascii) : bool := in_range 48 57 c.

Definition is_upper_az (c : ascii) : bool := in_range 65 90 c.
Definition is_lower_az (c : ascii) : bool := in_range 97 122 c.

(** The class [[A-Za-z]]. *)
Definition is_alpha_az (c : ascii) : bool := is_upper_az c || is_lower_az c.

(** The class [\w]: alphanumeric characters and the underscore. *)
Definition is_word (c : ascii) : bool :=
  is_digit c || is_alpha_az c || N.eqb (code c) 95
  || N.eqb (code c) 170 || in_range 178 179 c || N.eqb (code c) 181
  || in_range 185 186 c || in_range 188 190 c
  || in_range 192 214 c || in_range 216 246 c || in_range 248 255 c.

(** [str.lower] on one character: A-Z and the accented capitals move up
    by 32. *)
Definition lower (c : ascii) : ascii :=
  if is_upper_az c || in_range 192 214 c || in_range 216 222 c
  then ascii_of_N (code c + 32) else c.

(** Two characters match under [re.IGNORECASE]. *)
Definition eq_ci (a b : ascii) : bool := Ascii.eqb (lower a) (lower b).

End Chars.

(** ** Plain string helpers *)

Module Str.

Definition is_empty (s : string) : bool :=
  match s with EmptyString => true | String _ _ => false end.

(** Python's truth value of a [str]. *)
Definition truthy (s : string) : bool := negb (is_empty s).

(** [a or b] on strings. *)
Definition or_else (a b : string) : string := if truthy a then a else b.

Fixpoint lstrip (s : string) : string :=
  match s with
  | EmptyString => EmptyString
  | String c s' => if Chars.is_space c then lstrip s' else s
  end.

(** Drops the trailing white space; written so that a character is kept
    exactly when something that is not white space follows or it is not
    white space itself. *)
Fixpoint rstrip (s : string) : string :=
  match s with
  | EmptyString => EmptyString
  | String c s' =>
      let t := rstrip s' in
      if is_empty t && Chars.is_space c then EmptyString else String c t
  end.

(** [s.strip()] *)
Definition strip (s : string) : string := rstrip (lstrip s).

(** [re.sub(r"\s+", " ", s)]: every maximal run of white space becomes one
    space.  [in_run] tells that the previous character was white space, in
    which case the run has been replaced already. *)
Fixpoint collapse (in_run : bool) (s : string) : string :=
  match s with
  | EmptyString => EmptyString
  | String c s' =>
      if Chars.is_space c
      then (if in_run then collapse true s' else String " " (collapse true s'))
      else String c (collapse false s')
  end.

(** [sep.join(l)] *)
Fixpoint join (sep : string) (l : list string) : string :=
  match l with
  | [] => EmptyString
  | [x] => x
  | x :: l' => x ++ sep ++ join sep l'
  end.

(** The characters up to the first white space. *)
Fixpoint take_token (s : string) : string :=
  match s with
  | EmptyString => EmptyString
  | String c s' => if Chars.is_space c then EmptyString else String c (take_token s')
  end.

(** [s.split()[0]]: the first white-space delimited token; [None] where
    Python raises [IndexError] because [s] has no token at all. *)
Definition first_token (s : string) : option string :=
  match lstrip s with
  | EmptyString => None
  | t => Some (take_token t)
  end.

End Str.

(** [clean_text], lines 37-40.  The [None] case of the source gives the empty
    string; a caller with [None] in hand passes [""] here ([group_text]). *)
Definition clean_text (value : string) : string :=
  Str.strip (Str.collapse false value).

(** ** Regular expressions

    The fragment of Python's [re] the source uses: character classes,
    sequence, alternation, greedy bounded and unbounded repetition,
    capturing groups, [^], [$] and [\b].  A matcher takes the current state
    and a continuation; a failing continuation makes the matcher try its
    next choice, which is how a backtracking engine explores a pattern. *)

Module Re.

Inductive regex : Type :=
| Eps                                         (* the empty pattern *)
| Chr (p : ascii -> bool)                     (* one character of a class *)
| Seq (r1 r2 : regex)                         (* r1r2 *)
| Alt (r1 r2 : regex)                         (* r1|r2 *)
| Rep (lo : nat) (hi : option nat) (r : regex) (* r{lo,hi}, greedy *)
| Group (n : nat) (r : regex)                 (* capturing group number n *)
| Bol                                         (* ^ *)
| Eol                                         (* $ *)
| WordB.                                      (* \b *)

(** The subject is split at the current position: [before] holds the
    characters already passed, nearest first; [after] the ones ahead.
    [caps] maps a group number to the text it captured last. *)
Record state : Type := mk_state
  { before : list ascii; after : list ascii; caps : list (nat * string) }.

Definition pos (st : state) : nat := List.length (before st).

Definition advance (c : ascii) (rest : list ascii) (st : state) : state :=
  mk_state (c :: before st) rest (caps st).

(** The text between two states of one subject, [st] before [st']. *)
Definition text_between (st st' : state) : string :=
  string_of_list_ascii (rev (firstn (pos st' - pos st) (before st'))).

Definition set_cap (n : nat) (st st' : state) : state :=
  mk_state (before st') (after st') ((n, text_between st st') :: caps st').

Definition cont : Type := state -> option state.
Definition matcher : Type := state -> cont -> option state.

Definition is_word_opt (o : option ascii) : bool :=
  match o with Some c => Chars.is_word c | None => false end.

Definition at_word_boundary (st : state) : bool :=
  xorb (is_word_opt (hd_error (before st))) (is_word_opt (hd_error (after st))).

(** [$] without [re.MULTILINE]: at the end, or before a final newline. *)
Definition at_eol (st : state) : bool :=
  match after st with
  | [] => true
  | [c] => N.eqb (Chars.code c) 10
  | _ => false
  end.

(** Exactly [n] copies. *)
Fixpoint rep_min (n : nat) (mr : matcher) (st : state) (k : cont) : option state :=
  match n with
  | O => k st
  | S n' => mr st (fun st1 => rep_min n' mr st1 k)
  end.

(** At most [n] further copies, as many as possible first.  A copy has to
    move forward: the engine refuses an iteration that matched nothing. *)
Fixpoint rep_max (n : nat) (mr : matcher) (st : state) (k : cont) : option state :=
  match n with
  | O => k st
  | S n' =>
      match mr st (fun st1 =>
                     if (pos st <? pos st1)%nat then rep_max n' mr st1 k else None) with
      | Some res => Some res
      | None => k st
      end
  end.

(** The number of optional copies tried after the [lo] mandatory ones.
    With no upper bound it is the number of characters left: every copy
    consumes one at least, so no match needs more. *)
Definition extra (lo : nat) (hi : option nat) (st : state) : nat :=
  match hi with
  | Some h => h - lo
  | None => List.length (after st)
  end.

Fixpoint run (r : regex) : matcher :=
  match r with
  | Eps => fun st k => k st
  | Chr p => fun st k =>
      match after st with
      | c :: rest => if p c then k (advance c rest st) else None
      | [] => None
      end
  | Seq r1 r2 => fun st k => run r1 st (fun st1 => run r2 st1 k)
  | Alt r1 r2 => fun st k =>
      match run r1 st k with
      | Some res => Some res
      | None => run r2 st k
      end
  | Rep lo hi r1 => fun st k =>
      rep_min lo (run r1) st (fun st1 => rep_max (extra lo hi st1) (run r1) st1 k)
  | Group n r1 => fun st k => run r1 st (fun st1 => k (set_cap n st st1))
  | Bol => fun st k => match before st with [] => k st | _ :: _ => None end
  | Eol => fun st k => if at_eol st then k st else None
  | WordB => fun st k => if at_word_boundary st then k st else None
  end.

(** The end of the pattern.  With [must_advance] a match that ends where it
    started is refused (the engine sets it after an empty match). *)
Definition accept (must_advance : bool) (st0 : state) : cont :=
  fun st => if must_advance && (pos st =? pos st0)%nat then None else Some st.

(** A match: the states where it starts and where it ends. *)
Definition found : Type := (state * state)%type.

Definition match_here (r : regex) (must_advance : bool) (st : state) : option found :=
  match run r st (accept must_advance st) with
  | Some st' => Some (st, st')
  | None => None
  end.

(** Scans forward for the leftmost start at which the pattern matches;
    [must_advance] holds for the first start only. *)
Fixpoint search_from (r : regex) (must_advance : bool)
         (b a : list ascii) : option found :=
  match match_here r must_advance (mk_state b a []) with
  | Some f => Some f
  | None =>
      match a with
      | [] => None
      | c :: a' => search_from r false (c :: b) a'
      end
  end.

(** [re.search(r, s)] *)
Definition search (r : regex) (s : string) : option found :=
  search_from r false [] (list_ascii_of_string s).

(** [re.match(r, s)] *)
Definition match_ (r : regex) (s : string) : option found :=
  match_here r false (mk_state [] (list_ascii_of_string s) []).

(** [m.group(0)] *)
Definition group0 (f : found) : string := text_between (fst f) (snd f).

Fixpoint lookup (n : nat) (l : list (nat * string)) : option string :=
  match l with
  | [] => None
  | (k, v) :: l' => if (k =? n)%nat then Some v else lookup n l'
  end.

(** [m.group(n)] for [n >= 1]; [None] for a group that took no part. *)
Definition group (f : found) (n : nat) : option string :=
  lookup n (caps (snd f)).

(** [re.split(r, s)] for a pattern without groups, as far as the source
    looks at it: [None] when the list has one item only (no match), else
    item 1, the text between the first match and the second one (or the
    end of the subject).  The second search starts where the first match
    ended and must advance when that match was empty. *)
Definition split_item1 (r : regex) (s : string) : option string :=
  match search r s with
  | None => None
  | Some (st0, st1) =>
      match search_from r (pos st1 =? pos st0)%nat (before st1) (after st1) with
      | Some (st2, _) => Some (text_between st1 st2)
      | None => Some (string_of_list_ascii (after st1))
      end
  end.

(** *** Pattern building *)

Definition ws : regex := Chr Chars.is_space.
Definition digit : regex := Chr Chars.is_digit.
Definition star (r : regex) : regex := Rep 0 None r.
Definition plus (r : regex) : regex := Rep 1 None r.
Definition opt (r : regex) : regex := Rep 0 (Some 1) r.
Definition exactly (n : nat) (r : regex) : regex := Rep n (Some n) r.
Definition chr (c : ascii) : regex := Chr (Ascii.eqb c).
Definition chr_ci (c : ascii) : regex := Chr (Chars.eq_ci c).

Fixpoint seqs (l : list regex) : regex :=
  match l with
  | [] => Eps
  | [r] => r
  | r :: l' => Seq r (seqs l')
  end.

(** ["|".join(l)]: no alternative at all is the empty pattern. *)
Fixpoint alts (l : list regex) : regex :=
  match l with
  | [] => Eps
  | [r] => r
  | r :: l' => Alt r (alts l')
  end.

(** [re.escape(s)] compiled with [re.IGNORECASE]: the characters of [s],
    each taken literally, in either case. *)
Fixpoint escape_ci (s : string) : regex :=
  match s with
  | EmptyString => Eps
  | String c s' => Seq (chr_ci c) (escape_ci s')
  end.

End Re.

(** ** Parsed documents *)

Module Soup.

(** A node of the parse tree: a text node ([NavigableString]) or an element
    ([Tag]) with its name and its children.  Attributes play no part in the
    source and are left out. *)
#[warnings="-register-all"] Inductive node : Type :=
| Text (s : string)
| Tag (name : string) (children : list node).

(** The [BeautifulSoup] object: the top-level nodes of the document. *)
Definition soup : Type := list node.

Definition is_tag (n : node) : bool :=
  match n with Tag _ _ => true | Text _ => false end.

Definition has_name (nm : string) (n : node) : bool :=
  match n with Tag x _ => String.eqb x nm | Text _ => false end.

Definition named_in (names : list string) (n : node) : bool :=
  existsb (fun nm => has_name nm n) names.

(** Runs [f] on every item of a list together with the items after it. *)
Definition flat_map_tails {A B : Type} (f : A -> list A -> list B)
  : list A -> list B :=
  fix go (l : list A) : list B :=
    match l with
    | [] => []
    | x :: l' => f x l' ++ go l'
    end.

(** The first success of [f] along a list: a [for] loop that returns from
    inside its body. *)
Fixpoint first_some {A B : Type} (f : A -> option B) (l : list A) : option B :=
  match l with
  | [] => None
  | x :: l' => match f x with Some y => Some y | None => first_some f l' end
  end.

(** The strings below a node, in document order. *)
Fixpoint strings (n : node) : list string :=
  match n with
  | Text s => [s]
  | Tag _ cs => flat_map strings cs
  end.

(** [tag.get_text(sep, strip=...)]: with [strip] every string is stripped
    and the empty ones are dropped before joining. *)
Definition get_text (sep : string) (strip : bool) (n : node) : string :=
  Str.join sep
    (if strip then filter Str.truthy (map Str.strip (strings n)) else strings n).

(** An element together with the siblings that follow it. *)
Definition placed : Type := (node * list node)%type.

Fixpoint elements_of (n : node) (sibs : list node) : list placed :=
  match n with
  | Text _ => []
  | Tag _ cs => (n, sibs) :: flat_map_tails elements_of cs
  end.

(** Every element of the document, in document order. *)
Definition elements (d : soup) : list placed := flat_map_tails elements_of d.

(** [soup.find_all(name)] and [soup.find_all([name, ...])] *)
Definition find_all (names : list string) (d : soup) : list placed :=
  filter (fun e => named_in names (fst e)) (elements d).

(** [tag.find_next_sibling(name)], from the siblings after [tag]. *)
Definition find_next_sibling_named (nm : string) (sibs : list node) : option node :=
  find (has_name nm) sibs.

(** [tag.find_next_sibling()] *)
Definition find_next_sibling (sibs : list node) : option node :=
  find is_tag sibs.

(** [soup.title]: the first [title] element. *)
Definition title (d : soup) : option node :=
  match find_all ["title"] d with
  | [] => None
  | e :: _ => Some (fst e)
  end.

(** A text node as strategy 2 sees it: its string, the element
    [parent.find_next_sibling()] and the element [parent.find_next()]. *)
Record site : Type := mk_site
  { site_text : string; parent_sib : option node; parent_next : option node }.

Definition or_opt (a b : option node) : option node :=
  match a with Some x => Some x | None => b end.

(** The text nodes below [n], in document order.  [sibs] are the siblings
    after [n] and [up] is the first element after the subtree of the parent
    of [n]; [psib] and [pnext] are what a text node at this place records.
    For an element, the next element in document order is its first child
    element if it has one, else the first element after its subtree. *)
Fixpoint sites_of (n : node) (sibs : list node) (up psib pnext : option node)
  : list site :=
  match n with
  | Text s => [mk_site s psib pnext]
  | Tag _ cs =>
      let sib := find_next_sibling sibs in
      let aft := or_opt sib up in
      let nxt := or_opt (find is_tag cs) aft in
      flat_map_tails (fun c l => sites_of c l aft sib nxt) cs
  end.

(** The parent of a top-level text node is the document object itself: it
    has no sibling, and the element after it is the first top-level one. *)
Definition sites (d : soup) : list site :=
  flat_map_tails (fun c l => sites_of c l None None (find is_tag d)) d.

End Soup.

(** ** The label-value extractor, lines 43-76 *)

Import Soup.

(** [label_pattern], line 45. *)
Definition label_pattern (labels : list string) : Re.regex :=
  Re.seqs [Re.Bol; Re.star Re.ws;
           Re.Group 1 (Re.alts (map Re.escape_ci labels));
           Re.star Re.ws; Re.opt (Re.chr ":"); Re.star Re.ws; Re.Eol].

Definition is_some {A : Type} (o : option A) : bool :=
  match o with Some _ => true | None => false end.

(** The text both strategies 1 and 2 read off the value element. *)
Definition value_text (n : node) : string := clean_text (get_text " " true n).

(** The test of line 49 on a [dt] element. *)
Definition dt_matches (labels : list string) (dt : node) : bool :=
  Str.truthy (get_text "" true dt)
  && is_some (Re.match_ (label_pattern labels) (get_text "" true dt)).

(** Strategy 1, lines 48-52: one turn of the loop. *)
Definition strategy1_step (labels : list string) (e : placed) : option string :=
  if dt_matches labels (fst e)
  then match find_next_sibling_named "dd" (snd e) with
       | Some dd => Some (value_text dd)
       | None => None
       end
  else None.

Definition strategy1 (d : soup) (labels : list string) : option string :=
  first_some (strategy1_step labels) (find_all ["dt"] d).

(** [soup.find_all(string=label_pattern)]: the text nodes the pattern is
    found in.  The library passes over an empty string before it tries the
    pattern. *)
Definition find_all_string (labels : list string) (d : soup) : list site :=
  filter (fun s => Str.truthy (site_text s)
                   && is_some (Re.search (label_pattern labels) (site_text s)))
         (sites d).

Definition nonempty_value (o : option node) : option string :=
  match o with
  | Some n => if Str.truthy (value_text n) then Some (value_text n) else None
  | None => None
  end.

(** Strategy 2, lines 55-65: one turn of the loop.  [nxt is not parent]
    always holds, [find_next] never returns its own element. *)
Definition strategy2_step (s : site) : option string :=
  match nonempty_value (parent_sib s) with
  | Some v => Some v
  | None => nonempty_value (parent_next s)
  end.

Definition strategy2 (d : soup) (labels : list string) : option string :=
  first_some strategy2_step (find_all_string labels d).

(** The two patterns of lines 71 and 73. *)
Definition word_pattern (label : string) : Re.regex :=
  Re.seqs [Re.WordB; Re.escape_ci label; Re.WordB].

Definition split_pattern (label : string) : Re.regex :=
  Re.seqs [Re.escape_ci label; Re.star Re.ws; Re.opt (Re.chr ":"); Re.star Re.ws].

(** Strategy 3, lines 70-75: one turn of the inner loop. *)
Definition strategy3_label (txt label : string) : option string :=
  if is_some (Re.search (word_pattern label) txt)
  then match Re.split_item1 (split_pattern label) txt with
       | Some item => if Str.truthy (clean_text item)
                      then Some (clean_text item) else None
       | None => None
       end
  else None.

Definition strategy3_step (labels : list string) (e : placed) : option string :=
  first_some (strategy3_label (value_text (fst e))) labels.

Definition strategy3 (d : soup) (labels : list string) : option string :=
  first_some (strategy3_step labels) (find_all ["div"; "span"; "li"; "p"] d).

(** [find_labeled_value], lines 43-76. *)
Definition find_labeled_value (d : soup) (labels : list string) : string :=
  match strategy1 d labels with
  | Some v => v
  | None =>
      match strategy2 d labels with
      | Some v => v
      | None =>
          match strategy3 d labels with
          | Some v => v
          | None => ""
          end
      end
  end.

(** ** The record builder, lines 79-130 *)

(** [DETAIL_URL], line 9. *)
Definition DETAIL_URL : string := "https://ca.iaai.com/vehicle-details/2753101".

(** [HEADERS], lines 25-34. *)
Definition HEADERS : list string :=
  ["Stock No"; "Make"; "Model"; "Year"; "Auction Date"; "URL";
   "ACV Cost"; "Repair Cost"].

(** The dictionary [parse_vehicle] returns: one field per header. *)
Record vehicle : Type := mk_vehicle
  { Stock_No : string; Make : string; Model : string; Year : string;
    Auction_Date : string; URL : string; ACV_Cost : string;
    Repair_Cost : string }.

(** [m.group(n)] where the result goes on as a string.  A group that took
    no part gives [None] in Python; the groups read by the source are not
    optional in their patterns (see [stock_group_present] and
    [title_groups_present]), so the default is never used. *)
Definition group_text (f : Re.found) (n : nat) : string :=
  match Re.group f n with Some s => s | None => "" end.

(** [r"(\d{5,})"], line 84. *)
Definition stock_re : Re.regex := Re.Group 1 (Re.Rep 5 None Re.digit).

(** Lines 83-86. *)
Definition stock_from_url (url : string) : string :=
  match Re.search stock_re url with
  | Some m => group_text m 1
  | None => ""
  end.

Definition stock_labels : list string :=
  ["Stock No"; "Stock#"; "Stock Number"; "Lot #"; "Lot Number"].

(** The class [[A-Za-z0-9\- ]] of line 100. *)
Definition is_model_char (c : ascii) : bool :=
  Chars.is_alpha_az c || Chars.is_digit c
  || Ascii.eqb c "-" || Ascii.eqb c " ".

(** [r"\b(19|20)\d{2}\b\s+([A-Za-z]+)\s+([A-Za-z0-9\- ]{2,})"], line 100. *)
Definition title_re : Re.regex :=
  Re.seqs [Re.WordB;
           Re.Group 1 (Re.Alt (Re.Seq (Re.chr "1") (Re.chr "9"))
                              (Re.Seq (Re.chr "2") (Re.chr "0")));
           Re.exactly 2 Re.digit; Re.WordB; Re.plus Re.ws;
           Re.Group 2 (Re.plus (Re.Chr Chars.is_alpha_az)); Re.plus Re.ws;
           Re.Group 3 (Re.Rep 2 None (Re.Chr is_model_char))].

(** [mt.group(0).split()[0]], line 102.  A match of [title_re] starts with a
    digit, so the token exists ([title_year_token_defined]). *)
Definition year_of_match (mt : Re.found) : string :=
  match Str.first_token (Re.group0 mt) with Some t => t | None => "" end.

(** Lines 99-106 on the three values found so far. *)
Definition title_fallback (title_text year make model : string)
  : string * string * string :=
  if negb (Str.truthy year && Str.truthy make && Str.truthy model)
     && Str.truthy title_text
  then match Re.search title_re title_text with
       | Some mt =>
           (Str.or_else year (year_of_match mt),
            if Str.truthy make then make else group_text mt 2,
            if Str.truthy model then model else Str.strip (group_text mt 3))
       | None => (year, make, model)
       end
  else (year, make, model).

(** [r"\$?\s?\d{1,3}(?:,\d{3})*(?:\.\d{2})?"], line 113. *)
Definition money : Re.regex :=
  Re.seqs [Re.opt (Re.chr "$"); Re.opt Re.ws; Re.Rep 1 (Some 3) Re.digit;
           Re.star (Re.Seq (Re.chr ",") (Re.exactly 3 Re.digit));
           Re.opt (Re.Seq (Re.chr ".") (Re.exactly 2 Re.digit))].

(** Lines 114-116 (and 117-119). *)
Definition normalize_money (v : string) : string :=
  match Re.search money v with
  | Some m => Re.group0 m
  | None => v
  end.

(** Line 94. *)
Definition title_text (d : soup) : string :=
  match title d with
  | Some t => clean_text (get_text "" false t)
  | None => ""
  end.

(** [parse_vehicle], lines 79-130, from the parsed document on. *)
Definition parse_vehicle (d : soup) (url : string) : vehicle :=
  let stock_no := stock_from_url url in
  let page_stock := find_labeled_value d stock_labels in
  let stock_no := if Str.truthy page_stock then page_stock else stock_no in
  let '(year, make, model) :=
    title_fallback (title_text d)
                   (find_labeled_value d ["Year"])
                   (find_labeled_value d ["Make"])
                   (find_labeled_value d ["Model"]) in
  let auction_date :=
    find_labeled_value d ["Auction Date"; "Sale Date"; "Auction Time"; "Sale Time"] in
  let acv := normalize_money (find_labeled_value d ["ACV"; "Actual Cash Value"]) in
  let repair :=
    normalize_money
      (find_labeled_value d ["Repair Cost"; "Estimated Repair Cost"; "Est. Repair"]) in
  {| Stock_No := clean_text stock_no;
     Make := clean_text make;
     Model := clean_text model;
     Year := clean_text year;
     Auction_Date := clean_text auction_date;
     URL := url;
     ACV_Cost := clean_text acv;
     Repair_Cost := clean_text repair |}.

(** ** Post-processing, lines 204-219 *)

Module Frame.

(** A table of strings: the column names and the rows, every row holding
    one cell per column.  It stands for the [DataFrame] that
    [pd.read_csv(OUTPUT_CSV, dtype=str).fillna("")] gives. *)
Record frame : Type := mk_frame
  { columns : list string; rows : list (list string) }.

Fixpoint index_of (c : string) (cols : list string) : option nat :=
  match cols with
  | [] => None
  | x :: cols' =>
      if String.eqb x c then Some O
      else match index_of c cols' with Some i => Some (S i) | None => None end
  end.

(** [c in df.columns] *)
Definition has_column (df : frame) (c : string) : bool :=
  is_some (index_of c (columns df)).

(** The cell of [row] under column [c]. *)
Definition cell (cols : list string) (row : list string) (c : string) : string :=
  match index_of c cols with
  | Some i => nth i row ""
  | None => ""
  end.

(** [df[names]]: the named columns in the order asked for; [None] stands
    for the [KeyError] raised when one of them is missing. *)
Definition select (names : list string) (df : frame) : option frame :=
  if forallb (has_column df) names
  then Some (mk_frame names
               (map (fun row => map (cell (columns df) row) names) (rows df)))
  else None.

(** The values of a row under the columns [by_]. *)
Definition key_of (cols by_ : list string) (row : list string) : list string :=
  map (cell cols row) by_.

Fixpoint mem (k : list string) (seen : list (list string)) : bool :=
  match seen with
  | [] => false
  | x :: seen' => if list_eq_dec string_dec x k then true else mem k seen'
  end.

(** Keeps a row when no row before it had the same key. *)
Fixpoint keep_first (key : list string -> list string)
         (seen : list (list string)) (l : list (list string))
  : list (list string) :=
  match l with
  | [] => []
  | r :: l' =>
      if mem (key r) seen then keep_first key seen l'
      else r :: keep_first key (key r :: seen) l'
  end.

(** [df.drop_duplicates(subset=subset, keep="first")] *)
Definition drop_duplicates (subset : list string) (df : frame) : frame :=
  mk_frame (columns df) (keep_first (key_of (columns df) subset) [] (rows df)).

(** Keys are compared item by item, strings by code points: the order of
    Python's [str]. *)
Fixpoint key_compare (a b : list string) : comparison :=
  match a, b with
  | [], [] => Eq
  | [], _ :: _ => Lt
  | _ :: _, [] => Gt
  | x :: a', y :: b' =>
      match String.compare x y with
      | Eq => key_compare a' b'
      | ne => ne
      end
  end.

Definition key_leb (a b : list string) : bool :=
  match key_compare a b with Gt => false | _ => true end.

Fixpoint insert (key : list string -> list string)
         (r : list string) (l : list (list string)) : list (list string) :=
  match l with
  | [] => [r]
  | x :: l' => if key_leb (key r) (key x) then r :: l else x :: insert key r l'
  end.

(** A stable sort by ascending key. *)
Fixpoint sort (key : list string -> list string) (l : list (list string))
  : list (list string) :=
  match l with
  | [] => []
  | r :: l' => insert key r (sort key l')
  end.

(** [df.sort_values(by=by, ascending=[True] * len(by))] *)
Definition sort_values (by_ : list string) (df : frame) : frame :=
  mk_frame (columns df) (sort (key_of (columns df) by_) (rows df)).

End Frame.

Import Frame.

(** Lines 207-215: what happens to the table between reading and writing.
    [None] stands for an exception raised on the way. *)
Definition post_process (df : frame) : option frame :=
  match select HEADERS df with
  | None => None
  | Some df =>
      let df := if has_column df "Stock No"
                then drop_duplicates ["Stock No"] df else df in
      let sort_cols := filter (has_column df) ["Auction Date"; "Stock No"] in
      let df := match sort_cols with
                | [] => df
                | _ :: _ => sort_values sort_cols df
                end in
      Some df
  end.

(** The row a record becomes under the eight headers. *)
Definition row_of (v : vehicle) : list string :=
  [Stock_No v; Make v; Model v; Year v; Auction_Date v; URL v; ACV_Cost v;
   Repair_Cost v].

(** The table with the eight columns and one row per record. *)
Definition frame_of_rows (vs : list vehicle) : frame :=
  mk_frame HEADERS (map row_of vs).

(** *** The stage and the output file

    The file is modelled by the records it holds, the header line first.
    The two library calls touch it as follows.  [read_csv] only reads.
    [to_csv] opens the path for writing, which empties the file, and then
    writes the records one after the other.  What the environment does to
    these calls is a parameter of the stage. *)

Inductive fault : Type :=
| no_fault                 (* every call succeeds *)
| read_error               (* [read_csv] raises *)
| open_error               (* [to_csv] cannot open the file, e.g. locked *)
| write_error (n : nat).   (* [to_csv] raises after writing [n] records *)

Definition disk : Type := list (list string).

Definition read_csv (f : fault) (file : disk) : option frame :=
  match f, file with
  | read_error, _ => None
  | _, [] => None                      (* no header line: nothing to parse *)
  | _, header :: body => Some (mk_frame header body)
  end.

Definition records (df : frame) : disk := columns df :: rows df.

(** The file after [to_csv], and whether the call raised. *)
Definition to_csv (f : fault) (df : frame) (file : disk) : disk * bool :=
  match f with
  | open_error => (file, true)
  | write_error n =>
      if (n <? List.length (records df))%nat
      then (firstn n (records df), true)
      else (records df, false)
  | _ => (records df, false)
  end.

(** Lines 204-219: the [try] block with its [except Exception: pass].  The
    result is the file afterwards; no exception leaves the stage. *)
Definition post_process_stage (f : fault) (file : disk) : disk :=
  match read_csv f file with
  | None => file
  | Some df =>
      match post_process df with
      | None => file
      | Some df' => fst (to_csv f df' file)
      end
  end.


(** ** The list of target URLs, lines 14-23 *)

(** The lines a text file yields when it is read line by line: a line ends
    at a line feed, at a carriage return, or at the two in a row, and is
    handed over with a line feed at its end; text after the last line
    break is a line of its own.  [cur] is the line read so far and
    [after_cr] tells that the previous character was a carriage return. *)
Fixpoint lines_from (after_cr : bool) (cur : string) (s : string) : list string :=
  match s with
  | EmptyString => if Str.is_empty cur then [] else [cur]
  | String c s' =>
      if N.eqb (Chars.code c) 10
      then (if after_cr then lines_from false cur s'
            else (cur ++ String c "")%string :: lines_from false "" s')
      else if N.eqb (Chars.code c) 13
      then (cur ++ String (ascii_of_N 10) "")%string :: lines_from true "" s'
      else lines_from false (cur ++ String c "")%string s'
  end.

Definition file_lines (text : string) : list string := lines_from false "" text.

(** [line.startswith("#")] *)
Definition starts_with_hash (line : string) : bool :=
  match line with
  | String c _ => Ascii.eqb c "#"
  | EmptyString => false
  end.

(** [load_urls], lines 14-20.  The argument is the text of the file, or
    [None] when the file does not exist. *)
Definition load_urls (file : option string) : list string :=
  match file with
  | None => [DETAIL_URL]
  | Some text =>
      let lines := map Str.strip (file_lines text) in
      filter (fun line => Str.truthy line && negb (starts_with_hash line)) lines
  end.

(** ** The browser session, lines 132-194

    The browser is the environment of the script.  It is modelled by what
    it answers to the calls made so far: whether a call raises, and which
    document the page shows.  Only the calls that navigate or act on the
    page are taken to raise, the ones the source guards or retries;
    waiting, reading the content and saving the session succeed. *)

Module Browser.

Inductive call : Type :=
| Goto (url : string) (wait_until : option string) (timeout : option N)
| WaitForTimeout (ms : N)
| ClickAccept (timeout : N)
| MouseWheel (dx dy : N)
| Content
| StorageState
| Close.

(** The calls made so far, the latest first. *)
Definition history : Type := list call.

Record world : Type := mk_world
  { fails : history -> call -> bool;   (* the call raises *)
    shows : history -> soup }.         (* the parsed [page.content()] *)

Inductive result (A : Type) : Type :=
| Ok (a : A)
| Raised.

Arguments Ok {A} a.
Arguments Raised {A}.

(** A piece of script: from the calls made so far to the calls made after
    it and its outcome. *)
Definition script (A : Type) : Type := history -> history * result A.

Definition ret {A : Type} (a : A) : script A := fun h => (h, Ok a).

Definition bind {A B : Type} (m : script A) (f : A -> script B) : script B :=
  fun h =>
    match m h with
    | (h', Ok a) => f a h'
    | (h', Raised) => (h', Raised)
    end.

(** [try: m  except Exception: handler] *)
Definition try_except {A : Type} (m handler : script A) : script A :=
  fun h =>
    match m h with
    | (h', Ok a) => (h', Ok a)
    | (h', Raised) => handler h'
    end.

Local Notation "x <- m ;; k" := (bind m (fun x => k))
  (at level 61, m at next level, right associativity).
Local Notation "m ;; k" := (bind m (fun _ => k))
  (at level 61, right associativity).

Section Session.

Variable w : world.

(** A call that may raise. *)
Definition risky (c : call) : script unit :=
  fun h => (c :: h, if fails w h c then Raised else Ok tt).

(** A call that does not. *)
Definition quiet (c : call) : script unit := fun h => (c :: h, Ok tt).

Definition goto (url : string) (wait_until : option string)
           (timeout : option N) : script unit :=
  risky (Goto url wait_until timeout).

Definition wait_for_timeout (ms : N) : script unit :=
  quiet (WaitForTimeout ms).

Definition content : script soup := fun h => (Content :: h, Ok (shows w h)).

(** Lines 172-179: the three attempts to open a URL. *)
Definition navigate (url : string) : script unit :=
  try_except (goto url (Some "domcontentloaded") (Some 45000%N))
    (try_except (goto url (Some "load") (Some 45000%N))
       (goto url None (Some 60000%N) ;; wait_for_timeout 2500%N)).

(** Lines 171-190: one turn of the loop, up to the record. *)
Definition visit (url : string) : script vehicle :=
  navigate url ;;
  wait_for_timeout 1200%N ;;
  try_except (risky (MouseWheel 0%N 1200%N)) (ret tt) ;;
  wait_for_timeout 800%N ;;
  html <- content ;;
  ret (parse_vehicle html url).

(** Lines 169-190: the loop over the URLs. *)
Fixpoint scrape (urls : list string) : script (list vehicle) :=
  match urls with
  | [] => ret []
  | url :: urls' =>
      row <- visit url ;;
      rows <- scrape urls' ;;
      ret (row :: rows)
  end.



End Session.

End Browser.

(** ** The whole run, lines 23 and 132-219 *)

(** Lines 197-201: the header line and one line per row. *)
Definition write_csv (rows : list vehicle) : disk := records (frame_of_rows rows).


(** * Notions used to state the properties *)

(** ** White space *)

Module Norm.

(** The shape the specification asks of a stored value: no white space at
    either end and no two white-space characters in a row.  [prev] tells
    that the previous character was white space (or that there is none). *)
Fixpoint norm_from (prev : bool) (s : string) : bool :=
  match s with
  | EmptyString => negb prev
  | String c s' =>
      if Chars.is_space c then negb prev && norm_from true s'
      else norm_from false s'
  end.

Definition is_normalized (s : string) : bool :=
  match s with EmptyString => true | String _ _ => norm_from true s end.

(** The stronger shape [clean_text] produces: moreover the only white
    space is the plain space. *)
Fixpoint clean_from (prev : bool) (s : string) : bool :=
  match s with
  | EmptyString => negb prev
  | String c s' =>
      if Chars.is_space c
      then Ascii.eqb c " " && negb prev && clean_from true s'
      else clean_from false s'
  end.

Definition is_clean (s : string) : bool :=
  match s with EmptyString => true | String _ _ => clean_from true s end.

(** Single plain spaces, the ends not constrained. *)
Fixpoint spaced (prev : bool) (s : string) : bool :=
  match s with
  | EmptyString => true
  | String c s' =>
      if Chars.is_space c
      then Ascii.eqb c " " && negb prev && spaced true s'
      else spaced false s'
  end.

Definition no_space (s : string) : bool :=
  forallb (fun c => negb (Chars.is_space c)) (list_ascii_of_string s).

End Norm.

Import Norm.

(** ** What a successful run of the matcher tells

    [steps r st st'] says that pattern [r] can take the matcher from state
    [st] to state [st'].  Every answer of [Re.run] is backed by such a
    derivation ([ReFacts.run_sound]), and the facts needed about matched
    text follow by induction on it. *)

Module ReRel.

Import Re.

Inductive steps : regex -> state -> state -> Prop :=
| steps_eps : forall st, steps Eps st st
| steps_chr : forall p c rest st,
    after st = c :: rest -> p c = true ->
    steps (Chr p) st (advance c rest st)
| steps_seq : forall r1 r2 st st1 st2,
    steps r1 st st1 -> steps r2 st1 st2 -> steps (Seq r1 r2) st st2
| steps_alt_l : forall r1 r2 st st',
    steps r1 st st' -> steps (Alt r1 r2) st st'
| steps_alt_r : forall r1 r2 st st',
    steps r2 st st' -> steps (Alt r1 r2) st st'
| steps_rep_stop : forall hi r st, steps (Rep 0 hi r) st st
| steps_rep_more : forall lo hi r st st1 st2,
    steps r st st1 -> steps (Rep (pred lo) hi r) st1 st2 ->
    steps (Rep lo hi r) st st2
| steps_group : forall n r st st',
    steps r st st' -> steps (Group n r) st (set_cap n st st')
| steps_bol : forall st, before st = [] -> steps Bol st st
| steps_eol : forall st, at_eol st = true -> steps Eol st st
| steps_wordb : forall st, at_word_boundary st = true -> steps WordB st st.

(** A pattern whose character classes all lie within [P]. *)
Fixpoint classes_within (P : ascii -> bool) (r : regex) : Prop :=
  match r with
  | Chr p => forall c, p c = true -> P c = true
  | Seq r1 r2 | Alt r1 r2 => classes_within P r1 /\ classes_within P r2
  | Rep _ _ r1 | Group _ r1 => classes_within P r1
  | Eps | Bol | Eol | WordB => True
  end.

(** [st'] lies [w] further in the same subject than [st]. *)
Definition reaches (w : list ascii) (st st' : state) : Prop :=
  after st = w ++ after st' /\ before st' = rev w ++ before st.

End ReRel.

(** ** Notions that follow the wording of the specification *)

Module Wording.

(** The digits a text starts with. *)
Fixpoint leading_digits (s : list ascii) : list ascii :=
  match s with
  | [] => []
  | c :: s' => if Chars.is_digit c then c :: leading_digits s' else []
  end.

(** "The first run of [n] or more digits": going from the left, the first
    place where at least [n] digits stand in a row, and all the digits
    from there; nothing if there is no such place. *)
Fixpoint first_digit_run (n : nat) (s : list ascii) : list ascii :=
  match s with
  | [] => []
  | _ :: s' =>
      if (n <=? List.length (leading_digits s))%nat then leading_digits s
      else first_digit_run n s'
  end.

Definition first_run_of_digits (n : nat) (url : string) : string :=
  string_of_list_ascii (first_digit_run n (list_ascii_of_string url)).

(** [r] is the first item of [l] that has its key. *)
Definition first_occurrence {A K : Type} (key : A -> K) (r : A) (l : list A)
  : Prop :=
  exists pre post, l = pre ++ r :: post /\ forall x, In x pre -> key x <> key r.



(** The keys the two pandas calls work with. *)
Definition stock_key : list string -> list string := Frame.key_of HEADERS ["Stock No"].
Definition date_stock_key : list string -> list string :=
  Frame.key_of HEADERS ["Auction Date"; "Stock No"].


End Wording.

(** ** Sample documents *)

Module Samples.

(** A page whose cost figures sit in a definition list. *)
Definition costs_page : soup :=
  [Tag "dl" [Tag "dt" [Text "ACV"]; Tag "dd" [Text "12345"];
             Tag "dt" [Text "Repair Cost"];
             Tag "dd" [Text "Approx. $12,345.67 USD"]]].


(** Two matching terms, each with its own definition. *)
Definition two_terms : soup :=
  [Tag "dl" [Tag "dt" [Text "Year"]; Tag "dd" [Text "2020"];
             Tag "dt" [Text "Year:"]; Tag "dd" [Text "2021"]]].

(** A matching term without a definition, then some other element. *)
Definition lone_term : soup :=
  [Tag "dl" [Tag "dt" [Text "Year"]]; Tag "i" [Text "1999"]].

(** A matching term without a definition before a complete pair. *)
Definition late_pair : soup :=
  [Tag "dl" [Tag "dt" [Text "Year"]];
   Tag "dl" [Tag "dt" [Text "year :"]; Tag "dd" [Text "  2021 "]];
   Tag "b" [Text "Year"]; Tag "i" [Text "1999"]].

Definition stock_page : soup :=
  [Tag "dl" [Tag "dt" [Text "Stock No"]; Tag "dd" [Text "2753199"]]].

Definition titled_page : soup :=
  [Tag "html"
     [Tag "head" [Tag "title" [Text "2021 Honda Civic | IAAI"]];
      Tag "body" [Tag "dl" [Tag "dt" [Text "Make"]; Tag "dd" [Text "HONDA"]]]]].

End Samples.


(** ** Further notions *)

Module Shape.

(** The characters of a text that are not white space, in order. *)
Definition visible (s : string) : list ascii :=
  filter (fun c => negb (Chars.is_space c)) (list_ascii_of_string s).

(** A line break character. *)
Definition is_break (c : ascii) : bool :=
  N.eqb (Chars.code c) 10 || N.eqb (Chars.code c) 13.

Definition no_break (s : string) : bool :=
  forallb (fun c => negb (is_break c)) (list_ascii_of_string s).

(** A line feed, as a text. *)
Definition newline : string := String (ascii_of_N 10) "".

(** A line as the file yields it: free of line breaks but for a line feed
    at its end. *)
Definition line_ok (l : string) : Prop :=
  exists body, no_break body = true /\ (l = body \/ l = (body ++ newline)%string).

(** A line of [urls.txt] that counts: not blank, nothing around it, not a
    comment, on one line. *)
Definition is_url_entry (u : string) : bool :=
  Str.truthy u && String.eqb (Str.strip u) u
  && negb (starts_with_hash u) && no_break u.

Definition all_digits (s : string) : bool :=
  forallb Chars.is_digit (list_ascii_of_string s).

Definition all_letters (s : string) : bool :=
  forallb Chars.is_alpha_az (list_ascii_of_string s).

Definition has_digit (s : string) : bool :=
  existsb Chars.is_digit (list_ascii_of_string s).

(** The characters of a money amount: digits, "$", ",", "." and the plain
    space. *)
Definition is_money_char (c : ascii) : bool :=
  Chars.is_digit c || Ascii.eqb c "$" || Ascii.eqb c "," || Ascii.eqb c "."
  || Ascii.eqb c " ".

(** The classes of the money pattern of line 113. *)
Definition money_class (c : ascii) : bool :=
  Chars.is_digit c || Chars.is_space c || Ascii.eqb "$" c || Ascii.eqb "," c
  || Ascii.eqb "." c.

Definition money_only (s : string) : bool :=
  forallb is_money_char (list_ascii_of_string s).

(** A year as the title pattern takes it: "19" or "20" and two digits. *)
Definition is_title_year (s : string) : bool :=
  match list_ascii_of_string s with
  | [a; b; c; d] =>
      ((Ascii.eqb a "1" && Ascii.eqb b "9") || (Ascii.eqb a "2" && Ascii.eqb b "0"))
      && Chars.is_digit c && Chars.is_digit d
  | _ => false
  end.

Definition model_chars_only (s : string) : bool :=
  forallb is_model_char (list_ascii_of_string s).

(** The number of navigation calls in a history. *)
Fixpoint count_goto (h : Browser.history) : nat :=
  match h with
  | [] => 0
  | Browser.Goto _ _ _ :: h' => S (count_goto h')
  | _ :: h' => count_goto h'
  end.



End Shape.

(** ** Matches, exactly

    [spans r st st'] says that pattern [r] matches the text between the
    states [st] and [st'], with the bounds of every repetition kept and
    with every optional copy moving forward.  The matcher finds a match
    exactly when there is one ([TightFacts.run_sound_tight],
    [TightFacts.run_complete]). *)

Module ReTight.

Import Re.

Inductive spans : regex -> state -> state -> Prop :=
| sp_eps : forall st, spans Eps st st
| sp_chr : forall p c rest st,
    after st = c :: rest -> p c = true ->
    spans (Chr p) st (advance c rest st)
| sp_seq : forall r1 r2 st st1 st2,
    spans r1 st st1 -> spans r2 st1 st2 -> spans (Seq r1 r2) st st2
| sp_alt_l : forall r1 r2 st st',
    spans r1 st st' -> spans (Alt r1 r2) st st'
| sp_alt_r : forall r1 r2 st st',
    spans r2 st st' -> spans (Alt r1 r2) st st'
| sp_rep_stop : forall hi r st, spans (Rep 0 hi r) st st
| sp_rep_must : forall lo hi r st st1 st2,
    spans r st st1 -> spans (Rep lo (option_map pred hi) r) st1 st2 ->
    spans (Rep (S lo) hi r) st st2
| sp_rep_may : forall hi r st st1 st2,
    hi <> Some 0 -> spans r st st1 -> pos st < pos st1 ->
    spans (Rep 0 (option_map pred hi) r) st1 st2 ->
    spans (Rep 0 hi r) st st2
| sp_group : forall n r st st',
    spans r st st' -> spans (Group n r) st (set_cap n st st')
| sp_bol : forall st, before st = [] -> spans Bol st st
| sp_eol : forall st, at_eol st = true -> spans Eol st st
| sp_wordb : forall st, at_word_boundary st = true -> spans WordB st st.

(** Patterns without a capturing group. *)
Fixpoint groupless (r : regex) : Prop :=
  match r with
  | Group _ _ => False
  | Seq r1 r2 | Alt r1 r2 => groupless r1 /\ groupless r2
  | Rep _ _ r1 => groupless r1
  | Eps | Chr _ | Bol | Eol | WordB => True
  end.

(** [n] copies are within the upper bound [hi] of a repetition. *)
Definition fits (n : nat) (hi : option nat) : Prop :=
  match hi with None => True | Some h => n <= h end.

(** The upper bound that is left after [lo] copies. *)
Definition drop (lo : nat) (hi : option nat) : option nat :=
  option_map (fun h => h - lo) hi.

(** [k'] accepts wherever [k] does. *)
Definition weaker (k k' : cont) : Prop := forall s, k s <> None -> k' s <> None.

(** Two continuations with the same answers. *)
Definition agree (k1 k2 : cont) : Prop := forall s, k1 s = k2 s.

(** The state at the start of a subject. *)
Definition start (s : string) : state := mk_state [] (list_ascii_of_string s) [].

(** Patterns that are the same but for the way their character classes
    are written. *)
Fixpoint same (r1 r2 : regex) : Prop :=
  match r1, r2 with
  | Eps, Eps | Bol, Bol | Eol, Eol | WordB, WordB => True
  | Chr p, Chr q => forall c, p c = q c
  | Seq a b, Seq a' b' | Alt a b, Alt a' b' => same a a' /\ same b b'
  | Rep lo hi a, Rep lo' hi' a' => lo = lo' /\ hi = hi' /\ same a a'
  | Group n a, Group n' a' => n = n' /\ same a a'
  | _, _ => False
  end.

End ReTight.

(** ** What the label pattern accepts *)

Module LabelShape.

Definition all_space (w : list ascii) : bool := forallb Chars.is_space w.

(** The same text but for the case of its letters. *)
Definition same_letters (a b : list ascii) : Prop :=
  map Chars.lower a = map Chars.lower b.

Definition same_label (a b : string) : Prop :=
  same_letters (list_ascii_of_string a) (list_ascii_of_string b).

(** [text] is one of the labels, in any case of its letters, with white
    space allowed before it, after it, and after the colon that may
    follow. *)
Definition labelled (labels : list string) (text : string) : Prop :=
  exists l w1 l' w2 colon w3,
    In l labels
    /\ list_ascii_of_string text = w1 ++ l' ++ w2 ++ colon ++ w3
    /\ all_space w1 = true
    /\ same_letters l' (list_ascii_of_string l)
    /\ all_space w2 = true
    /\ (colon = [] \/ colon = [":"%char])
    /\ all_space w3 = true.

End LabelShape.

(** ** Sample pages *)

Module Pages.

(** A page with a title and nothing else. *)
Definition title_only_page : soup :=
  [Tag "html" [Tag "head" [Tag "title" [Text "2015 Ford F-150 XL | IAAI"]]]].

End Pages.

(** ** Sample browsers *)

Module Worlds.

(** Every call goes through and every page is empty. *)
Definition calm : Browser.world := Browser.mk_world (fun _ _ => false) (fun _ => []).


End Worlds.
(** * Lemmas *)

(** ** What [clean_text] returns *)

Ltac bool_split :=
  repeat match goal with
         | H : (_ && _)%bool = true |- _ => apply andb_prop in H; destruct H
         | |- (_ && _)%bool = true => apply andb_true_intro; split
         end.

Lemma collapse_spaced : forall s b, spaced b (Str.collapse b s) = true.
Proof.
  induction s as [|c s IH]; intros b; simpl; [reflexivity|].
  destruct (Chars.is_space c) eqn:Hc.
  - destruct b; simpl; [apply IH|]. rewrite IH. reflexivity.
  - simpl. rewrite Hc. apply IH.
Qed.

Lemma lstrip_spaced : forall s b, spaced b s = true -> spaced true (Str.lstrip s) = true.
Proof.
  induction s as [|c s IH]; intros b H; simpl in *; [reflexivity|].
  destruct (Chars.is_space c) eqn:Hc.
  - bool_split. eapply IH; eassumption.
  - simpl. rewrite Hc. assumption.
Qed.

Lemma rstrip_clean_from : forall s b,
  spaced b s = true -> Str.rstrip s = "" \/ clean_from b (Str.rstrip s) = true.
Proof.
  induction s as [|c s IH]; intros b H; simpl in *; [now left|].
  destruct (Chars.is_space c) eqn:Hc.
  - bool_split. destruct (IH true H0) as [E|E].
    + rewrite E. simpl. now left.
    + destruct (Str.rstrip s) eqn:Hr; simpl in *; [discriminate|].
      right. rewrite Hc. bool_split; assumption.
  - right. rewrite andb_false_r. simpl. rewrite Hc.
    destruct (IH false H) as [E|E]; [rewrite E; reflexivity | exact E].
Qed.

(** What [clean_text] returns has the strong shape. *)
Lemma clean_text_is_clean : forall s, is_clean (clean_text s) = true.
Proof.
  intros s. unfold clean_text, Str.strip.
  pose proof (lstrip_spaced _ _ (collapse_spaced s false)) as H.
  destruct (rstrip_clean_from _ _ H) as [E|E].
  - rewrite E. reflexivity.
  - destruct (Str.rstrip _); [reflexivity | exact E].
Qed.

Lemma clean_from_norm_from : forall s b, clean_from b s = true -> norm_from b s = true.
Proof.
  induction s as [|c s IH]; intros b H; simpl in *; [assumption|].
  destruct (Chars.is_space c); [bool_split|]; auto.
Qed.

Lemma is_clean_normalized : forall s, is_clean s = true -> is_normalized s = true.
Proof.
  intros [|c s] H; [reflexivity|]. now apply clean_from_norm_from.
Qed.

Lemma clean_text_normalized : forall s, is_normalized (clean_text s) = true.
Proof. intros s. apply is_clean_normalized, clean_text_is_clean. Qed.

Lemma clean_from_spaced : forall s b, clean_from b s = true -> spaced b s = true.
Proof.
  induction s as [|c s IH]; intros b H; simpl in *; [reflexivity|].
  destruct (Chars.is_space c); [bool_split|]; auto.
Qed.

Lemma spaced_collapse : forall s b, spaced b s = true -> Str.collapse b s = s.
Proof.
  induction s as [|c s IH]; intros b H; simpl in *; [reflexivity|].
  destruct (Chars.is_space c) eqn:Hc.
  - bool_split. apply Ascii.eqb_eq in H. subst c.
    destruct b; [discriminate|]. now rewrite IH.
  - now rewrite IH.
Qed.

Lemma clean_from_rstrip : forall s b, clean_from b s = true -> Str.rstrip s = s.
Proof.
  induction s as [|c s IH]; intros b H; simpl in *; [reflexivity|].
  destruct (Chars.is_space c) eqn:Hc.
  - bool_split. rewrite (IH true H0).
    destruct s; [discriminate | reflexivity].
  - rewrite (IH false H), andb_false_r. reflexivity.
Qed.

(** On a string of the strong shape [clean_text] changes nothing. *)
Lemma clean_text_fixes_clean : forall s, is_clean s = true -> clean_text s = s.
Proof.
  intros [|c s] H; [reflexivity|]. unfold clean_text.
  change (clean_from true (String c s) = true) in H.
  assert (Hc : Chars.is_space c = false).
  { simpl in H. destruct (Chars.is_space c); [|reflexivity].
    bool_split. discriminate. }
  rewrite (spaced_collapse _ false).
  - unfold Str.strip.
    assert (Hl : Str.lstrip (String c s) = String c s).
    { simpl. now rewrite Hc. }
    rewrite Hl. eapply clean_from_rstrip. exact H.
  - simpl in *. rewrite Hc in *. now apply clean_from_spaced.
Qed.

Lemma clean_text_idempotent : forall s, clean_text (clean_text s) = clean_text s.
Proof. intros s. apply clean_text_fixes_clean, clean_text_is_clean. Qed.

Lemma no_space_clean_from : forall s, no_space s = true -> clean_from false s = true.
Proof.
  unfold no_space. induction s as [|c s IH]; intros H; simpl in *; [reflexivity|].
  bool_split. destruct (Chars.is_space c); [discriminate | auto].
Qed.

(** Text without white space is left alone by [clean_text]. *)
Lemma clean_text_no_space : forall s, no_space s = true -> clean_text s = s.
Proof.
  intros s H. apply clean_text_fixes_clean.
  destruct s as [|c s]; [reflexivity|].
  pose proof (no_space_clean_from _ H) as Hc. simpl in *.
  unfold no_space in H. simpl in H. bool_split.
  destruct (Chars.is_space c); [discriminate | assumption].
Qed.

(** ** Soundness of the matcher *)

Module ReFacts.

Import Re ReRel.

Create HintDb re.
#[local] Hint Constructors steps : re.


Section Repetition.

Variable r : regex.
Variable hi : option nat.
Hypothesis run_r_sound : forall st k res,
  run r st k = Some res -> exists st', steps r st st' /\ k st' = Some res.

Lemma rep_max_sound : forall n st k res,
  rep_max n (run r) st k = Some res ->
  exists st', steps (Rep 0 hi r) st st' /\ k st' = Some res.
Proof.
  induction n as [|n IH]; intros st k res H; simpl in H.
  - exists st. auto with re.
  - destruct (run r st _) as [res0|] eqn:E.
    + injection H as ->.
      apply run_r_sound in E. destruct E as (st1 & Hs & Hk).
      destruct (pos st <? pos st1)%nat; [|discriminate].
      apply IH in Hk. destruct Hk as (st' & Hs' & Hk').
      exists st'. split; [|assumption].
      eapply steps_rep_more; eassumption.
    + exists st. auto with re.
Qed.

Lemma rep_min_sound : forall n st k res,
  rep_min n (run r) st k = Some res ->
  exists st1,
    (forall st', steps (Rep 0 hi r) st1 st' -> steps (Rep n hi r) st st')
    /\ k st1 = Some res.
Proof.
  induction n as [|n IH]; intros st k res H; simpl in H.
  - exists st. auto.
  - apply run_r_sound in H. destruct H as (sta & Hs & Hk).
    apply IH in Hk. destruct Hk as (st1 & Hall & Hk).
    exists st1. split; [|assumption].
    intros st' Hst'. eapply steps_rep_more; [eassumption|].
    simpl. auto.
Qed.

End Repetition.

(** Soundness of the matcher. *)
Lemma run_sound : forall r st k res,
  run r st k = Some res -> exists st', steps r st st' /\ k st' = Some res.
Proof.
  induction r as [|p|r1 IH1 r2 IH2|r1 IH1 r2 IH2|lo hi r IH|n r IH| | |];
    intros st k res H; simpl in H.
  - exists st. auto with re.
  - destruct (after st) as [|c rest] eqn:Ea; [discriminate|].
    destruct (p c) eqn:Ep; [|discriminate].
    exists (advance c rest st). auto with re.
  - apply IH1 in H. destruct H as (st1 & H1 & H).
    apply IH2 in H. destruct H as (st2 & H2 & H).
    exists st2. eauto with re.
  - destruct (run r1 st k) as [res0|] eqn:E.
    + injection H as ->. apply IH1 in E. destruct E as (st' & ? & ?).
      exists st'. auto with re.
    + apply IH2 in H. destruct H as (st' & ? & ?).
      exists st'. auto with re.
  - apply (rep_min_sound r hi IH) in H. destruct H as (st1 & Hall & H).
    apply (rep_max_sound r hi IH) in H. destruct H as (st' & Hs & H).
    exists st'. auto.
  - apply IH in H. destruct H as (st' & Hs & H).
    exists (set_cap n st st'). auto with re.
  - destruct (before st) eqn:E; [|discriminate]. exists st. auto with re.
  - destruct (at_eol st) eqn:E; [|discriminate]. exists st. auto with re.
  - destruct (at_word_boundary st) eqn:E; [|discriminate]. exists st. auto with re.
Qed.

Lemma match_here_sound : forall r adv st f,
  match_here r adv st = Some f -> fst f = st /\ steps r st (snd f).
Proof.
  unfold match_here. intros r adv st f H.
  destruct (run r st (accept adv st)) as [st'|] eqn:E; [|discriminate].
  injection H as <-. apply run_sound in E. destruct E as (st1 & Hs & Hk).
  unfold accept in Hk. destruct (adv && _)%bool; [discriminate|].
  injection Hk as <-. auto.
Qed.

(** A match found by scanning starts with no captures and is a run of the
    pattern. *)
Lemma search_from_sound : forall r a adv b f,
  search_from r adv b a = Some f ->
  caps (fst f) = [] /\ steps r (fst f) (snd f).
Proof.
  induction a as [|c a IH]; intros adv b f H; simpl in H.
  - destruct (match_here r adv _) eqn:E; [|discriminate].
    injection H as <-. apply match_here_sound in E. destruct E as [E1 E2].
    rewrite E1 in *. auto.
  - destruct (match_here r adv _) eqn:E.
    + injection H as <-. apply match_here_sound in E. destruct E as [E1 E2].
      rewrite E1 in *. auto.
    + eapply IH; eassumption.
Qed.

Lemma search_sound : forall r s f,
  search r s = Some f -> caps (fst f) = [] /\ steps r (fst f) (snd f).
Proof. intros r s f. apply search_from_sound. Qed.

Lemma reaches_refl : forall st, reaches [] st st.
Proof. intros st. split; reflexivity. Qed.

Lemma reaches_trans : forall w1 w2 a b c,
  reaches w1 a b -> reaches w2 b c -> reaches (w1 ++ w2) a c.
Proof.
  intros w1 w2 a b c [H1 H2] [H3 H4]. split.
  - rewrite H1, H3, app_assoc. reflexivity.
  - rewrite H4, H2, rev_app_distr, app_assoc. reflexivity.
Qed.

(** The matcher only moves forward, over characters its classes accept. *)
Lemma steps_reaches : forall P r st st',
  steps r st st' -> classes_within P r ->
  exists w, reaches w st st' /\ forallb P w = true.
Proof.
  intros P r st st' H. induction H; intros HP; simpl in HP;
    try (exists []; split; [apply reaches_refl | reflexivity]).
  - exists [c]. split.
    + split; simpl; [assumption | reflexivity].
    + simpl. rewrite (HP c H0). reflexivity.
  - destruct HP as [HP1 HP2].
    destruct (IHsteps1 HP1) as (w1 & R1 & F1).
    destruct (IHsteps2 HP2) as (w2 & R2 & F2).
    exists (w1 ++ w2). split; [eapply reaches_trans; eassumption|].
    rewrite forallb_app, F1, F2. reflexivity.
  - apply IHsteps, HP.
  - apply IHsteps, HP.
  - destruct (IHsteps1 HP) as (w1 & R1 & F1).
    destruct (IHsteps2 HP) as (w2 & R2 & F2).
    exists (w1 ++ w2). split; [eapply reaches_trans; eassumption|].
    rewrite forallb_app, F1, F2. reflexivity.
  - destruct (IHsteps HP) as (w & [R1 R2] & F).
    exists w. split; [split; assumption | assumption].
Qed.

Lemma text_between_reaches : forall w st st',
  reaches w st st' -> text_between st st' = string_of_list_ascii w.
Proof.
  intros w st st' [_ H]. unfold text_between, pos. rewrite H.
  rewrite length_app, Nat.add_sub, length_rev.
  rewrite <- (length_rev w) at 1. rewrite firstn_app, firstn_all, Nat.sub_diag.
  simpl. rewrite app_nil_r, rev_involutive. reflexivity.
Qed.

End ReFacts.

(** ** Loops that return from their body *)

Lemma first_some_in : forall (A B : Type) (f : A -> option B) l y,
  first_some f l = Some y -> exists x, In x l /\ f x = Some y.
Proof.
  induction l as [|a l IH]; intros y H; simpl in H; [discriminate|].
  destruct (f a) eqn:E.
  - injection H as ->. exists a. simpl. auto.
  - destruct (IH _ H) as (x & ? & ?). exists x. simpl. auto.
Qed.

Lemma first_some_skip : forall (A B : Type) (f : A -> option B) pre l,
  (forall x, In x pre -> f x = None) ->
  first_some f (pre ++ l) = first_some f l.
Proof.
  induction pre as [|a pre IH]; intros l H; simpl; [reflexivity|].
  rewrite (H a (or_introl eq_refl)). apply IH.
  intros x Hx. apply H. now right.
Qed.


Lemma first_some_at : forall (A B : Type) (f : A -> option B) pre x post y,
  (forall e, In e pre -> f e = None) -> f x = Some y ->
  first_some f (pre ++ x :: post) = Some y.
Proof.
  intros A B f pre x post y Hpre Hx.
  rewrite first_some_skip by assumption. simpl. now rewrite Hx.
Qed.

(** ** Every value the extractor returns has been through [clean_text] *)

Lemma value_text_clean : forall n, is_clean (value_text n) = true.
Proof. intros n. apply clean_text_is_clean. Qed.

Lemma strategy1_clean : forall d labels v,
  strategy1 d labels = Some v -> is_clean v = true.
Proof.
  unfold strategy1. intros d labels v H.
  apply first_some_in in H. destruct H as (e & _ & H).
  unfold strategy1_step in H.
  destruct (dt_matches labels (fst e)); [|discriminate].
  destruct (find_next_sibling_named "dd" (snd e)); [|discriminate].
  injection H as <-. apply value_text_clean.
Qed.

Lemma nonempty_value_clean : forall o v,
  nonempty_value o = Some v -> is_clean v = true /\ Str.truthy v = true.
Proof.
  intros [n|] v H; simpl in H; [|discriminate].
  destruct (Str.truthy (value_text n)) eqn:E; [|discriminate].
  injection H as <-. split; [apply value_text_clean | exact E].
Qed.

Lemma strategy2_step_clean : forall s v,
  strategy2_step s = Some v -> is_clean v = true /\ Str.truthy v = true.
Proof.
  unfold strategy2_step. intros s v H.
  destruct (nonempty_value (parent_sib s)) eqn:E.
  - injection H as <-. eapply nonempty_value_clean; eassumption.
  - eapply nonempty_value_clean; eassumption.
Qed.

Lemma strategy2_clean : forall d labels v,
  strategy2 d labels = Some v -> is_clean v = true /\ Str.truthy v = true.
Proof.
  unfold strategy2. intros d labels v H.
  apply first_some_in in H. destruct H as (s & _ & H).
  eapply strategy2_step_clean; eassumption.
Qed.

Lemma strategy3_clean : forall d labels v,
  strategy3 d labels = Some v -> is_clean v = true /\ Str.truthy v = true.
Proof.
  unfold strategy3, strategy3_step. intros d labels v H.
  apply first_some_in in H. destruct H as (e & _ & H).
  apply first_some_in in H. destruct H as (label & _ & H).
  unfold strategy3_label in H.
  destruct (is_some (Re.search _ _)); [|discriminate].
  destruct (Re.split_item1 _ _) as [item|]; [|discriminate].
  destruct (Str.truthy (clean_text item)) eqn:E; [|discriminate].
  injection H as <-. split; [apply clean_text_is_clean | exact E].
Qed.

Lemma find_labeled_value_clean : forall d labels,
  is_clean (find_labeled_value d labels) = true.
Proof.
  intros d labels. unfold find_labeled_value.
  destruct (strategy1 d labels) eqn:E1; [eapply strategy1_clean; eassumption|].
  destruct (strategy2 d labels) eqn:E2; [eapply strategy2_clean; eassumption|].
  destruct (strategy3 d labels) eqn:E3; [eapply strategy3_clean; eassumption|].
  reflexivity.
Qed.

(** Cleaning a value the extractor returned gives it back. *)
Lemma clean_text_find_labeled_value : forall d labels,
  clean_text (find_labeled_value d labels) = find_labeled_value d labels.
Proof. intros. apply clean_text_fixes_clean, find_labeled_value_clean. Qed.

(** ** The groups the record builder reads always took part *)

Module GroupFacts.

Import Re ReRel ReFacts.

Ltac inv H := inversion H; subst; clear H.

Lemma steps_seq_inv : forall r1 r2 st st',
  steps (Seq r1 r2) st st' -> exists st1, steps r1 st st1 /\ steps r2 st1 st'.
Proof. intros r1 r2 st st' H. inv H. eauto. Qed.

Lemma steps_alt_inv : forall r1 r2 st st',
  steps (Alt r1 r2) st st' -> steps r1 st st' \/ steps r2 st st'.
Proof. intros r1 r2 st st' H. inv H; auto. Qed.

Lemma steps_group_inv : forall n r st st',
  steps (Group n r) st st' -> exists st1, steps r st st1 /\ st' = set_cap n st st1.
Proof. intros n r st st' H. inv H. eauto. Qed.

Lemma steps_chr_inv : forall p st st',
  steps (Chr p) st st' ->
  exists c rest, after st = c :: rest /\ p c = true /\ st' = advance c rest st.
Proof. intros p st st' H. inv H. eauto. Qed.

Lemma steps_wordb_inv : forall st st', steps WordB st st' -> st' = st.
Proof. intros st st' H. now inv H. Qed.

Ltac seq_inv H s H1 :=
  apply steps_seq_inv in H; destruct H as (s & H1 & H).

(** A group that has captured stays captured. *)
Lemma steps_keeps_caps : forall r st st',
  steps r st st' ->
  forall n, lookup n (caps st) <> None -> lookup n (caps st') <> None.
Proof.
  intros r st st' H. induction H; intros m Hm; auto.
  unfold set_cap. cbn [caps lookup].
  destruct (n =? m)%nat; [discriminate | auto].
Qed.

Lemma steps_group_sets : forall n r st st',
  steps (Group n r) st st' -> lookup n (caps st') <> None.
Proof.
  intros n r st st' H. inv H. unfold set_cap. cbn [caps lookup].
  rewrite Nat.eqb_refl. discriminate.
Qed.

Lemma reaches_set_cap : forall w n st a b,
  reaches w st b -> reaches w st (set_cap n a b).
Proof. intros w n st a b H. exact H. Qed.

Lemma classes_within_any : forall r, classes_within (fun _ => true) r.
Proof. induction r; simpl; auto. Qed.

Lemma steps_moves_forward : forall r st st',
  steps r st st' -> exists w, reaches w st st'.
Proof.
  intros r st st' H.
  destruct (steps_reaches (fun _ => true) r st st' H (classes_within_any r))
    as (w & Hw & _).
  now exists w.
Qed.

(** [m.group(1)] of line 86 is a string. *)
Lemma stock_group_present : forall url f,
  search stock_re url = Some f -> group f 1 <> None.
Proof.
  intros url f H. apply search_sound in H. destruct H as [_ H].
  unfold group. eapply steps_group_sets. exact H.
Qed.

(** [mt.group(2)] and [mt.group(3)] of lines 104 and 106 are strings. *)
Lemma title_groups_present : forall t f,
  search title_re t = Some f -> group f 2 <> None /\ group f 3 <> None.
Proof.
  intros t f H. apply search_sound in H. destruct H as [_ H].
  unfold title_re in H. cbn [seqs] in H. unfold group.
  seq_inv H s1 H1. seq_inv H s2 H2. seq_inv H s3 H3. seq_inv H s4 H4.
  seq_inv H s5 H5. seq_inv H s6 H6. seq_inv H s7 H7.
  split.
  - eapply steps_keeps_caps; [exact H|].
    eapply steps_keeps_caps; [exact H7|].
    eapply steps_group_sets. exact H6.
  - eapply steps_group_sets. exact H.
Qed.

Lemma steps_lit_head : forall a r st st',
  steps (Seq (chr a) r) st st' -> exists w, reaches (a :: w) st st'.
Proof.
  intros a r st st' H. seq_inv H s H1.
  apply steps_chr_inv in H1. destruct H1 as (c & rest & Ha & Hc & ->).
  apply Ascii.eqb_eq in Hc. subst c.
  destruct (steps_moves_forward _ _ _ H) as (w & Hw). exists w.
  apply (reaches_trans [a] w _ (advance a rest st)); [|assumption].
  split; [assumption | reflexivity].
Qed.

(** A match of the title pattern starts with the digit 1 or 2. *)
Lemma title_match_starts_with_digit : forall st st',
  steps title_re st st' ->
  exists c w, (c = "1"%char \/ c = "2"%char) /\ reaches (c :: w) st st'.
Proof.
  intros st st' H. unfold title_re in H. cbn [seqs] in H.
  seq_inv H s1 H1. apply steps_wordb_inv in H1. subst s1.
  seq_inv H s2 H2.
  destruct (steps_moves_forward _ _ _ H) as (w2 & Hw2).
  apply steps_group_inv in H2. destruct H2 as (s3 & H2 & ->).
  assert (Hhead : exists c w1, (c = "1"%char \/ c = "2"%char)
                               /\ reaches (c :: w1) st s3).
  { apply steps_alt_inv in H2. destruct H2 as [H2|H2];
      apply steps_lit_head in H2; destruct H2 as (w1 & Hw1); eauto. }
  destruct Hhead as (c & w1 & Hc & Hr).
  exists c, (w1 ++ w2). split; [assumption|].
  apply (reaches_trans (c :: w1) w2 _ (set_cap 1 st s3)); [|assumption].
  apply reaches_set_cap. assumption.
Qed.

(** [mt.group(0).split()[0]] of line 102 is defined: the match has a first
    token. *)
Lemma title_year_token_defined : forall t f,
  search title_re t = Some f -> Str.first_token (group0 f) <> None.
Proof.
  intros t f H. apply search_sound in H. destruct H as [_ H].
  destruct (title_match_starts_with_digit _ _ H) as (c & w & Hc & Hr).
  unfold group0. rewrite (text_between_reaches _ _ _ Hr).
  unfold Str.first_token. cbn [string_of_list_ascii Str.lstrip].
  destruct Hc as [-> | ->]; cbn; discriminate.
Qed.

End GroupFacts.

(** ** The stock number read off the URL

    The pattern of line 84, run by the matcher, finds the first run of five
    or more digits in the sense of [Wording.first_digit_run]. *)

Module StockFacts.

Import Re ReRel ReFacts Wording.

Lemma leading_digits_all : forall a, forallb Chars.is_digit (leading_digits a) = true.
Proof.
  induction a as [|c a IH]; simpl; [reflexivity|].
  destruct (Chars.is_digit c) eqn:E; simpl; [now rewrite E | reflexivity].
Qed.

Lemma leading_digits_split : forall a,
  a = leading_digits a ++ skipn (List.length (leading_digits a)) a.
Proof.
  induction a as [|c a IH]; simpl; [reflexivity|].
  destruct (Chars.is_digit c); simpl; [now rewrite <- IH | reflexivity].
Qed.

(** Taking [n] digits first and the digits after them next is taking all
    the leading digits. *)
Lemma leading_digits_firstn : forall n a,
  n <= List.length (leading_digits a) ->
  firstn n a ++ leading_digits (skipn n a) = leading_digits a.
Proof.
  induction n as [|n IH]; intros a H; simpl; [reflexivity|].
  destruct a as [|c a]; simpl in *; [lia|].
  destruct (Chars.is_digit c); simpl in *; [|lia].
  rewrite IH by lia. reflexivity.
Qed.

(** The mandatory copies of [\d{n,}]. *)
Lemma rep_min_digit : forall n a b cs k,
  rep_min n (run digit) (mk_state b a cs) k =
  if (n <=? List.length (leading_digits a))%nat
  then k (mk_state (rev (firstn n a) ++ b) (skipn n a) cs)
  else None.
Proof.
  induction n as [|n IH]; intros a b cs k; [reflexivity|].
  destruct a as [|c a]; [reflexivity|].
  cbn [rep_min run digit after leading_digits].
  destruct (Chars.is_digit c) eqn:E; [|reflexivity].
  unfold advance. cbn [before caps]. rewrite IH.
  cbn [List.length Nat.leb firstn skipn rev].
  rewrite <- app_assoc. reflexivity.
Qed.

(** The optional copies: with a continuation that accepts whatever it is
    given, the greedy loop takes every digit ahead. *)
Lemma rep_max_digit : forall a n b cs k,
  (forall st, k st <> None) -> List.length a <= n ->
  rep_max n (run digit) (mk_state b a cs) k =
  k (mk_state (rev (leading_digits a) ++ b)
              (skipn (List.length (leading_digits a)) a) cs).
Proof.
  induction a as [|c a IH]; intros n b cs k Hk Hn.
  - destruct n; reflexivity.
  - destruct n as [|n]; [simpl in Hn; lia|].
    cbn [rep_max run digit after leading_digits].
    destruct (Chars.is_digit c) eqn:E; [|reflexivity].
    unfold advance. cbn [before caps pos List.length].
    rewrite (proj2 (Nat.ltb_lt _ _) (Nat.lt_succ_diag_r _)).
    rewrite IH by (simpl in Hn; auto; lia).
    cbn [List.length skipn rev]. rewrite <- app_assoc. cbn [app].
    match goal with |- match ?x with _ => _ end = _ =>
      destruct x eqn:Ex; [reflexivity | exfalso; eapply Hk; eassumption] end.
Qed.

(** One try of [stock_re] at a given place. *)
Lemma match_here_stock : forall a b,
  option_map (fun f => group_text f 1) (match_here stock_re false (mk_state b a [])) =
  if (5 <=? List.length (leading_digits a))%nat
  then Some (string_of_list_ascii (leading_digits a)) else None.
Proof.
  intros a b. unfold match_here, stock_re.
  cbn [run]. rewrite rep_min_digit.
  destruct (5 <=? List.length (leading_digits a))%nat eqn:E; [|reflexivity].
  apply Nat.leb_le in E. unfold extra. cbn [after].
  rewrite rep_max_digit; [|unfold accept; simpl; discriminate | lia].
  unfold accept. cbn [andb option_map]. f_equal.
  unfold group_text, group. cbn [snd set_cap caps lookup Nat.eqb].
  apply text_between_reaches. unfold reaches. cbn [before after].
  split; rewrite <- (leading_digits_firstn 5 a E).
  - rewrite <- app_assoc, <- leading_digits_split.
    symmetry. apply firstn_skipn.
  - rewrite rev_app_distr, <- app_assoc. reflexivity.
Qed.

Lemma search_from_stock : forall a b,
  match search_from stock_re false b a with
  | Some f => group_text f 1
  | None => ""
  end = string_of_list_ascii (first_digit_run 5 a).
Proof.
  induction a as [|c a IH]; intros b.
  - cbn [search_from]. pose proof (match_here_stock [] b) as H.
    destruct (match_here stock_re false _); simpl in H; [discriminate | reflexivity].
  - cbn [search_from first_digit_run].
    pose proof (match_here_stock (c :: a) b) as H.
    destruct (5 <=? List.length (leading_digits (c :: a)))%nat.
    + destruct (match_here stock_re false _); simpl in H; [|discriminate].
      now injection H.
    + destruct (match_here stock_re false _); simpl in H; [discriminate|].
      apply IH.
Qed.

(** The default stock number is the first run of five or more digits. *)
Lemma stock_from_url_first_run : forall url,
  stock_from_url url = first_run_of_digits 5 url.
Proof.
  intros url. unfold stock_from_url, first_run_of_digits, search.
  apply search_from_stock.
Qed.

Lemma first_digit_run_all : forall n a, forallb Chars.is_digit (first_digit_run n a) = true.
Proof.
  induction a as [|c a IH]; [reflexivity|].
  cbn [first_digit_run].
  destruct (n <=? _)%nat; [apply leading_digits_all | apply IH].
Qed.

Lemma digit_not_space : forall c, Chars.is_digit c = true -> Chars.is_space c = false.
Proof.
  intros c. unfold Chars.is_digit, Chars.is_space, Chars.in_range.
  intros H. apply andb_prop in H. destruct H as [H1 H2].
  apply N.leb_le in H1, H2.
  repeat rewrite orb_false_iff. repeat split;
    try (apply andb_false_iff; first [left; apply N.leb_gt; lia | right; apply N.leb_gt; lia]);
    apply N.eqb_neq; lia.
Qed.

Lemma digits_no_space : forall w,
  forallb Chars.is_digit w = true -> no_space (string_of_list_ascii w) = true.
Proof.
  intros w H. unfold no_space. rewrite list_ascii_of_string_of_list_ascii.
  induction w as [|c w IH]; [reflexivity|]. simpl in *.
  apply andb_prop in H. destruct H as [H1 H2].
  rewrite (digit_not_space _ H1), IH by assumption. reflexivity.
Qed.

(** A stock number taken from the URL is already clean. *)
Lemma clean_text_stock_from_url : forall url,
  clean_text (stock_from_url url) = stock_from_url url.
Proof.
  intros url. apply clean_text_no_space.
  rewrite stock_from_url_first_run. apply digits_no_space, first_digit_run_all.
Qed.

End StockFacts.

(** ** The order of keys *)

Module OrderFacts.

Import Frame.

Lemma compare_lt_trans : forall a b c,
  String.compare a b = Lt -> String.compare b c = Lt -> String.compare a c = Lt.
Proof.
  intros a b c H1 H2.
  apply OrderedTypeEx.String_as_OT.cmp_lt in H1, H2.
  apply OrderedTypeEx.String_as_OT.cmp_lt.
  eapply OrderedTypeEx.String_as_OT.lt_trans; eassumption.
Qed.

Lemma compare_eq : forall a b, String.compare a b = Eq <-> a = b.
Proof. exact OrderedTypeEx.String_as_OT.cmp_eq. Qed.

Lemma key_compare_eq : forall a b, key_compare a b = Eq <-> a = b.
Proof.
  induction a as [|x a IH]; intros [|y b]; simpl; split; intros H;
    try discriminate; try reflexivity.
  - destruct (String.compare x y) eqn:E; try discriminate.
    apply compare_eq in E. apply IH in H. now subst.
  - injection H as -> ->.
    rewrite (proj2 (compare_eq y y) eq_refl). now apply IH.
Qed.

Lemma key_compare_antisym : forall a b,
  key_compare a b = CompOpp (key_compare b a).
Proof.
  induction a as [|x a IH]; intros [|y b]; simpl; try reflexivity.
  rewrite String.compare_antisym.
  destruct (String.compare y x); simpl; auto.
Qed.

Lemma key_compare_lt_trans : forall a b c,
  key_compare a b = Lt -> key_compare b c = Lt -> key_compare a c = Lt.
Proof.
  induction a as [|x a IH]; intros [|y b] [|z c] H1 H2; simpl in *;
    try discriminate; try reflexivity.
  destruct (String.compare x y) eqn:E1; try discriminate;
    destruct (String.compare y z) eqn:E2; try discriminate.
  - apply compare_eq in E1, E2. subst.
    rewrite (proj2 (compare_eq z z) eq_refl). eapply IH; eassumption.
  - apply compare_eq in E1. subst. now rewrite E2.
  - apply compare_eq in E2. subst. now rewrite E1.
  - now rewrite (compare_lt_trans _ _ _ E1 E2).
Qed.

Lemma key_leb_total : forall a b, key_leb a b = true \/ key_leb b a = true.
Proof.
  intros a b. unfold key_leb. rewrite (key_compare_antisym b a).
  destruct (key_compare a b); simpl; auto.
Qed.

Lemma key_leb_trans : forall a b c,
  key_leb a b = true -> key_leb b c = true -> key_leb a c = true.
Proof.
  unfold key_leb. intros a b c H1 H2.
  destruct (key_compare a b) eqn:E1; try discriminate;
    destruct (key_compare b c) eqn:E2; try discriminate.
  - apply key_compare_eq in E1, E2. subst.
    now rewrite (proj2 (key_compare_eq c c) eq_refl).
  - apply key_compare_eq in E1. subst. now rewrite E2.
  - apply key_compare_eq in E2. subst. now rewrite E1.
  - now rewrite (key_compare_lt_trans _ _ _ E1 E2).
Qed.

End OrderFacts.

(** ** Sorting *)


Section SortFacts.

Import Frame OrderFacts.

Variable key : list string -> list string.

Let le (a b : list string) : Prop := key_leb (key a) (key b) = true.

Lemma insert_perm : forall r l, Permutation (insert key r l) (r :: l).
Proof.
  induction l as [|x l IH]; simpl; [reflexivity|].
  destruct (key_leb (key r) (key x)); [reflexivity|].
  rewrite IH. apply perm_swap.
Qed.

Lemma sort_perm : forall l, Permutation (sort key l) l.
Proof.
  induction l as [|r l IH]; simpl; [reflexivity|].
  rewrite insert_perm. now constructor.
Qed.

Lemma insert_sorted : forall r l,
  StronglySorted le l -> StronglySorted le (insert key r l).
Proof.
  induction l as [|x l IH]; intros H; simpl.
  - repeat constructor.
  - inversion H as [|? ? Hs Hf]; subst.
    destruct (key_leb (key r) (key x)) eqn:E.
    + constructor; [assumption|]. constructor; [exact E|].
      eapply Forall_impl; [|exact Hf].
      intros y Hy. eapply key_leb_trans; eassumption.
    + constructor; [now apply IH|].
      eapply Permutation_Forall; [symmetry; apply insert_perm|].
      constructor; [|assumption].
      destruct (key_leb_total (key r) (key x)) as [H1|H1]; [congruence | exact H1].
Qed.

Lemma sort_sorted : forall l, StronglySorted le (sort key l).
Proof.
  induction l as [|r l IH]; simpl; [constructor | now apply insert_sorted].
Qed.



End SortFacts.

(** ** Dropping duplicates *)

Section KeepFirstFacts.

Import Frame Wording.

Variable key : list string -> list string.

Lemma mem_In : forall k seen, mem k seen = true <-> In k seen.
Proof.
  induction seen as [|x seen IH]; simpl; [split; [discriminate | tauto]|].
  destruct (list_eq_dec string_dec x k) as [->|N].
  - split; auto.
  - rewrite IH. split; [auto | intros [H|H]; [contradiction | assumption]].
Qed.

Lemma mem_false : forall k seen, mem k seen = false <-> ~ In k seen.
Proof.
  intros k seen. rewrite <- mem_In. destruct (mem k seen); split; congruence.
Qed.

Lemma first_occurrence_nil : forall r, ~ first_occurrence key r [].
Proof. intros r (pre & post & H & _). destruct pre; discriminate. Qed.

Lemma first_occurrence_cons : forall r x l,
  first_occurrence key r (x :: l) <->
  x = r \/ (key x <> key r /\ first_occurrence key r l).
Proof.
  intros r x l. split.
  - intros (pre & post & H & Hpre). destruct pre as [|y pre]; simpl in H.
    + injection H as -> _. now left.
    + injection H as <- ->. right. split.
      * apply Hpre. now left.
      * exists pre, post. split; [reflexivity|].
        intros z Hz. apply Hpre. now right.
  - intros [->|(Hx & pre & post & -> & Hpre)].
    + exists [], l. split; [reflexivity | intros ? []].
    + exists (x :: pre), post. split; [reflexivity|].
      intros z [<-|Hz]; auto.
Qed.

(** A row is kept exactly when its key was not seen before and it is the
    first row with that key. *)
Lemma keep_first_in : forall l seen r,
  In r (keep_first key seen l) <->
  ~ In (key r) seen /\ first_occurrence key r l.
Proof.
  induction l as [|x l IH]; intros seen r; simpl.
  - split; [tauto | intros [_ H]; exact (first_occurrence_nil _ H)].
  - rewrite first_occurrence_cons.
    destruct (mem (key x) seen) eqn:E.
    + apply mem_In in E. rewrite IH. split.
      * intros [H1 H2]. split; [assumption|]. right. split; [|assumption].
        intros Heq. apply H1. now rewrite <- Heq.
      * intros [H1 [->|[_ H2]]]; [contradiction | auto].
    + apply mem_false in E. simpl. rewrite IH. simpl. split.
      * intros [->|[H1 H2]]; [auto|].
        split; [tauto|]. right. split; [|assumption].
        intros Heq. apply H1. now left.
      * intros [H1 [->|[H2 H3]]]; [now left|].
        right. split; [|assumption]. intros [Heq|Hin]; auto.
Qed.

Lemma keep_first_nodup : forall l seen, NoDup (map key (keep_first key seen l)).
Proof.
  induction l as [|x l IH]; intros seen; simpl; [constructor|].
  destruct (mem (key x) seen); [apply IH|].
  simpl. constructor; [|apply IH].
  intros Hin. apply in_map_iff in Hin. destruct Hin as (y & Hy & Hin).
  apply keep_first_in in Hin. destruct Hin as [Hn _].
  apply Hn. left. now symmetry.
Qed.


End KeepFirstFacts.

(** ** The table after post-processing *)

Module PostFacts.

Import Frame Wording OrderFacts.



Lemma select_headers : forall vs,
  select HEADERS (frame_of_rows vs) = Some (frame_of_rows vs).
Proof.
  intros vs. unfold select.
  replace (forallb (has_column (frame_of_rows vs)) HEADERS) with true by reflexivity.
  unfold frame_of_rows. cbn [columns rows]. do 2 f_equal.
  rewrite map_map. apply map_ext. intros [? ? ? ? ? ? ? ?]. reflexivity.
Qed.

(** On a table with the eight headers no step raises, both guards hold,
    and the result is the de-duplicated rows in sorted order. *)
Lemma post_process_rows : forall vs,
  post_process (frame_of_rows vs) =
  Some (mk_frame HEADERS
          (sort date_stock_key (keep_first stock_key [] (map row_of vs)))).
Proof.
  intros vs. unfold post_process. rewrite select_headers. reflexivity.
Qed.



End PostFacts.

(** * The claims *)

Import Wording.

Import Samples.

(** ** C1: money normalisation *)

(** The stored cost is the cleaned first match of the money pattern, or the
    cleaned extracted text when the pattern matches nowhere. *)
Lemma stored_cost_from_first_match : forall d url,
  ACV_Cost (parse_vehicle d url) =
    clean_text (normalize_money (find_labeled_value d ["ACV"; "Actual Cash Value"]))
  /\ Repair_Cost (parse_vehicle d url) =
    clean_text (normalize_money
      (find_labeled_value d ["Repair Cost"; "Estimated Repair Cost"; "Est. Repair"])).
Proof.
  intros d url. unfold parse_vehicle.
  destruct (title_fallback _ _ _ _) as [[y mk] mo]. split; reflexivity.
Qed.

(** C1.  For the extracted text "Approx. $12,345.67 USD" the stored value is
    "$12,345.67"; for the extracted text "12345" the pattern of line 113
    matches the first three digits only and the stored value is "123", not
    "12345". *)
Theorem money_unseparated_digits_truncated :
  Repair_Cost (parse_vehicle costs_page DETAIL_URL) = "$12,345.67"
  /\ option_map Re.group0 (Re.search money "12345") = Some "123"
  /\ ACV_Cost (parse_vehicle costs_page DETAIL_URL) = "123"
  /\ ACV_Cost (parse_vehicle costs_page DETAIL_URL) <> "12345".
Proof. repeat split; try reflexivity. discriminate. Qed.

(** ** C2: stored values are white-space normalised *)

(** C2, as stated, fails for the URL field: the URL is stored as given. *)
Lemma url_field_stored_verbatim :
  URL (parse_vehicle [] "https://ca.iaai.com/a  b") = "https://ca.iaai.com/a  b"
  /\ is_normalized (URL (parse_vehicle [] "https://ca.iaai.com/a  b")) = false.
Proof. split; reflexivity. Qed.

(** C2, amended.  For every document and URL the seven extracted fields of
    the record have no white space at either end and no two white-space
    characters in a row; the URL field is the URL as given. *)
Theorem record_fields_normalized : forall d url,
  let r := parse_vehicle d url in
  is_normalized (Stock_No r) = true /\ is_normalized (Make r) = true
  /\ is_normalized (Model r) = true /\ is_normalized (Year r) = true
  /\ is_normalized (Auction_Date r) = true
  /\ is_normalized (ACV_Cost r) = true /\ is_normalized (Repair_Cost r) = true
  /\ URL r = url.
Proof.
  intros d url. unfold parse_vehicle.
  destruct (title_fallback _ _ _ _) as [[y mk] mo]. cbn.
  repeat split; apply clean_text_normalized.
Qed.

(** ** C3: strategy 2 *)




(** ** C4: the extractor always returns a normalised string *)

(** C4.  [find_labeled_value] is a function of the document and the labels
    alone; its result has no white space at either end and no two
    white-space characters in a row, and it is the empty string when all
    three strategies fail. *)
Theorem find_labeled_value_normalized : forall d labels,
  is_normalized (find_labeled_value d labels) = true
  /\ (strategy1 d labels = None -> strategy2 d labels = None ->
      strategy3 d labels = None -> find_labeled_value d labels = "").
Proof.
  intros d labels. split.
  - apply is_clean_normalized, find_labeled_value_clean.
  - intros H1 H2 H3. unfold find_labeled_value. now rewrite H1, H2, H3.
Qed.

Lemma find_labeled_value_normalized_witness :
  is_normalized (find_labeled_value [] ["Year"]) = true
  /\ find_labeled_value [] ["Year"] = "".
Proof.
  split.
  - exact (proj1 (find_labeled_value_normalized [] ["Year"])).
  - exact (proj2 (find_labeled_value_normalized [] ["Year"]) eq_refl eq_refl eq_refl).
Defined.

(** ** C5: strategy 1 comes first *)

(** C5, as stated, fails.  In [two_terms] the second term matches and has
    the definition "2021", yet the definition of the first matching term is
    returned.  In [lone_term] a term matches but no definition follows it,
    and the value found by strategy 2 is returned. *)
Lemma strategy1_not_every_matching_term :
  (exists dt sibs dd,
      In (dt, sibs) (find_all ["dt"] two_terms)
      /\ dt_matches ["Year"] dt = true
      /\ find_next_sibling_named "dd" sibs = Some dd
      /\ value_text dd = "2021"
      /\ find_labeled_value two_terms ["Year"] = "2020")
  /\ (exists dt sibs,
      In (dt, sibs) (find_all ["dt"] lone_term)
      /\ dt_matches ["Year"] dt = true
      /\ find_next_sibling_named "dd" sibs = None
      /\ strategy2 lone_term ["Year"] = Some "1999"
      /\ find_labeled_value lone_term ["Year"] = "1999").
Proof.
  split.
  - exists (Tag "dt" [Text "Year:"]), [Tag "dd" [Text "2021"]], (Tag "dd" [Text "2021"]).
    split; [right; left; reflexivity | repeat split; reflexivity].
  - exists (Tag "dt" [Text "Year"]), [].
    split; [left; reflexivity | repeat split; reflexivity].
Qed.

(** C5, amended.  Take the first [dt] element, in document order, whose
    text (its stripped non-empty strings, concatenated) is not empty and
    matches a label, and which has a [dd] element among the siblings after
    it.  The extractor returns the cleaned text of the first such [dd],
    whatever strategies 2 and 3 would find elsewhere in the document. *)
Theorem strategy1_first_pair_wins : forall d labels pre dt sibs post dd,
  find_all ["dt"] d = pre ++ (dt, sibs) :: post ->
  (forall e, In e pre -> dt_matches labels (fst e) = true ->
             find_next_sibling_named "dd" (snd e) = None) ->
  dt_matches labels dt = true ->
  find_next_sibling_named "dd" sibs = Some dd ->
  find_labeled_value d labels = value_text dd.
Proof.
  intros d labels pre dt sibs post dd Hl Hpre Hdt Hdd.
  unfold find_labeled_value, strategy1. rewrite Hl.
  rewrite (first_some_at _ _ _ pre (dt, sibs) post (value_text dd)).
  - reflexivity.
  - intros e He. unfold strategy1_step.
    destruct (dt_matches labels (fst e)) eqn:E; [|reflexivity].
    now rewrite (Hpre e He E).
  - unfold strategy1_step. cbn [fst snd]. now rewrite Hdt, Hdd.
Qed.

Lemma strategy1_first_pair_wins_witness :
  find_labeled_value late_pair ["Year"] = "2021".
Proof.
  refine (strategy1_first_pair_wins late_pair ["Year"]
            [(Tag "dt" [Text "Year"], [])]
            (Tag "dt" [Text "year :"])
            [Tag "dd" [Text "  2021 "]] []
            (Tag "dd" [Text "  2021 "]) eq_refl _ eq_refl eq_refl).
  intros e [<-|[]] _. reflexivity.
Defined.

(** ** C6: where the stock number comes from *)

(** C6.  The stock number of the record is the value the extractor finds
    for the stock labels when that value is not empty, and otherwise the
    first run of five or more digits of the URL (empty if there is none). *)
Theorem stock_number_precedence :
  (forall d url,
      Stock_No (parse_vehicle d url) =
      if Str.truthy (find_labeled_value d stock_labels)
      then find_labeled_value d stock_labels
      else first_run_of_digits 5 url)
  /\ Stock_No (parse_vehicle [] DETAIL_URL) = "2753101"
  /\ Stock_No (parse_vehicle stock_page DETAIL_URL) = "2753199".
Proof.
  split; [|split; reflexivity].
  intros d url. unfold parse_vehicle.
  destruct (title_fallback _ _ _ _) as [[y mk] mo]. cbn [Stock_No].
  destruct (Str.truthy (find_labeled_value d stock_labels)).
  - apply clean_text_find_labeled_value.
  - rewrite StockFacts.clean_text_stock_from_url.
    apply StockFacts.stock_from_url_first_run.
Qed.

(** ** C7: the title fallback leaves found values alone *)

Lemma title_fallback_frame : forall t y mk mo,
  (Str.truthy y = true -> fst (fst (title_fallback t y mk mo)) = y)
  /\ (Str.truthy mk = true -> snd (fst (title_fallback t y mk mo)) = mk)
  /\ (Str.truthy mo = true -> snd (title_fallback t y mk mo) = mo).
Proof.
  intros t y mk mo. unfold title_fallback, Str.or_else.
  destruct (negb _ && Str.truthy t)%bool; [|auto].
  destruct (Re.search title_re t); [|auto].
  cbn [fst snd]. repeat split; intros H; now rewrite H.
Qed.

Lemma title_fallback_idle : forall t y mk mo,
  (Str.truthy y && Str.truthy mk && Str.truthy mo)%bool = true \/ t = "" ->
  title_fallback t y mk mo = (y, mk, mo).
Proof.
  intros t y mk mo [H| ->]; unfold title_fallback.
  - now rewrite H.
  - now rewrite andb_false_r.
Qed.

(** C7.  A year, make or model the extractor found is the one stored; and
    when all three were found, or the document has no title text, the
    title pattern plays no part: the stored values are the extractor's. *)
Theorem title_fallback_keeps_found_values : forall d url,
  let r := parse_vehicle d url in
  let y := find_labeled_value d ["Year"] in
  let mk := find_labeled_value d ["Make"] in
  let mo := find_labeled_value d ["Model"] in
  (Str.truthy y = true -> Year r = y)
  /\ (Str.truthy mk = true -> Make r = mk)
  /\ (Str.truthy mo = true -> Model r = mo)
  /\ ((Str.truthy y && Str.truthy mk && Str.truthy mo)%bool = true
      \/ title_text d = "" ->
      Year r = y /\ Make r = mk /\ Model r = mo).
Proof.
  intros d url. cbv zeta. unfold parse_vehicle.
  pose proof (title_fallback_frame (title_text d)
                (find_labeled_value d ["Year"]) (find_labeled_value d ["Make"])
                (find_labeled_value d ["Model"])) as (Hy & Hmk & Hmo).
  pose proof (title_fallback_idle (title_text d)
                (find_labeled_value d ["Year"]) (find_labeled_value d ["Make"])
                (find_labeled_value d ["Model"])) as Hidle.
  destruct (title_fallback _ _ _ _) as [[y mk] mo]. cbn in *.
  split; [|split; [|split]].
  - intros H. rewrite (Hy H). apply clean_text_find_labeled_value.
  - intros H. rewrite (Hmk H). apply clean_text_find_labeled_value.
  - intros H. rewrite (Hmo H). apply clean_text_find_labeled_value.
  - intros H. injection (Hidle H) as -> -> ->.
    repeat split; apply clean_text_find_labeled_value.
Qed.

Lemma title_fallback_keeps_found_values_witness :
  Make (parse_vehicle titled_page DETAIL_URL) = "HONDA"
  /\ Year (parse_vehicle titled_page DETAIL_URL) = "2021"
  /\ Model (parse_vehicle titled_page DETAIL_URL) = "Civic"
  /\ Year (parse_vehicle stock_page DETAIL_URL) = "".
Proof.
  split; [|split; [|split]].
  - exact (proj1 (proj2 (title_fallback_keeps_found_values titled_page DETAIL_URL))
                 eq_refl).
  - reflexivity.
  - reflexivity.
  - exact (proj1 (proj2 (proj2 (proj2
             (title_fallback_keeps_found_values stock_page DETAIL_URL)))
             (or_intror eq_refl))).
Defined.

(** ** C8: the post-processed table *)

Import Frame PostFacts.



(** Strings are ordered as text, not as dates: "2024-10-1" sorts before
    "2024-9-1". *)
Example post_process_orders_text :
  post_process
    (frame_of_rows
       [mk_vehicle "2753101" "A" "" "" "2024-9-1" "u1" "" "";
        mk_vehicle "2753102" "B" "" "" "2024-10-1" "u2" "" "";
        mk_vehicle "2753101" "C" "" "" "2024-1-1" "u3" "" ""])
  = Some (frame_of_rows
       [mk_vehicle "2753102" "B" "" "" "2024-10-1" "u2" "" "";
        mk_vehicle "2753101" "A" "" "" "2024-9-1" "u1" "" ""]).
Proof. reflexivity. Qed.

(** ** C9: a failure while the file is rewritten *)

(** A failure before the file is opened for writing leaves it as it was,
    whatever the failure: reading, a missing column, or the open itself. *)
Lemma post_process_stage_early_failure : forall f file,
  f = read_error \/ f = open_error
  \/ read_csv f file = None
  \/ (exists df, read_csv f file = Some df /\ post_process df = None) ->
  post_process_stage f file = file.
Proof.
  intros f file H. unfold post_process_stage.
  destruct H as [-> | [-> | [H | (df & H1 & H2)]]].
  - destruct file; reflexivity.
  - destruct (read_csv open_error file); [|reflexivity].
    destruct (post_process f); reflexivity.
  - now rewrite H.
  - now rewrite H1, H2.
Qed.

(** C9 fails when [to_csv] raises after it has opened the file: the file
    was emptied by the open, the exception is swallowed, and the rows
    written by the stage before are gone. *)
Theorem post_process_write_failure_loses_rows :
  let raw := records (frame_of_rows
                        [mk_vehicle "2753101" "HONDA" "Civic" "2021" "" "u1" "" "";
                         mk_vehicle "2753102" "KIA" "Rio" "2020" "" "u2" "" ""]) in
  post_process_stage (write_error 0) raw = []
  /\ post_process_stage (write_error 0) raw <> raw
  /\ post_process_stage open_error raw = raw.
Proof. cbv zeta. split; [reflexivity | split; [discriminate | reflexivity]]. Qed.

(** ** C10: rows without a stock number *)


(** * Further properties *)

Import Shape.

(** ** [clean_text], lines 37-40 *)

Lemma visible_collapse : forall s b, visible (Str.collapse b s) = visible s.
Proof.
  unfold visible. induction s as [|c s IH]; intros b; simpl; [reflexivity|].
  destruct (Chars.is_space c) eqn:E; simpl.
  - destruct b; simpl; apply IH.
  - rewrite E. simpl. now rewrite IH.
Qed.

Lemma visible_lstrip : forall s, visible (Str.lstrip s) = visible s.
Proof.
  unfold visible. induction s as [|c s IH]; simpl; [reflexivity|].
  destruct (Chars.is_space c) eqn:E; simpl; [exact IH | now rewrite E].
Qed.

Lemma visible_rstrip : forall s, visible (Str.rstrip s) = visible s.
Proof.
  unfold visible. induction s as [|c s IH]; simpl; [reflexivity|].
  destruct (Str.is_empty (Str.rstrip s) && Chars.is_space c)%bool eqn:E.
  - apply andb_prop in E. destruct E as [E1 E2]. rewrite E2. simpl.
    rewrite <- IH. destruct (Str.rstrip s); [reflexivity | discriminate].
  - simpl. now rewrite IH.
Qed.

Lemma visible_strip : forall s, visible (Str.strip s) = visible s.
Proof. intros s. unfold Str.strip. now rewrite visible_rstrip, visible_lstrip. Qed.

Lemma visible_clean : forall s, visible (clean_text s) = visible s.
Proof. intros s. unfold clean_text. now rewrite visible_strip, visible_collapse. Qed.

(** X1.  [clean_text] neither drops nor changes nor reorders a character
    that is not white space. *)
Theorem clean_text_keeps_visible : forall s, visible (clean_text s) = visible s.
Proof.
  intros s. unfold clean_text, Str.strip.
  now rewrite visible_rstrip, visible_lstrip, visible_collapse.
Qed.

(** X2.  The result of [clean_text] is empty exactly when the text holds
    nothing but white space. *)
Theorem clean_text_empty_iff : forall s, clean_text s = "" <-> visible s = [].
Proof.
  intros s. rewrite <- (visible_clean s). split.
  - intros ->. reflexivity.
  - intros H. pose proof (clean_text_is_clean s) as Hc.
    destruct (clean_text s) as [|c t]; [reflexivity|].
    exfalso. unfold visible in H. simpl in *.
    destruct (Chars.is_space c); [|discriminate].
    rewrite !andb_false_r in Hc. discriminate.
Qed.

(** X3.  What [clean_text] returns holds no white space but single plain
    spaces between other characters, and the texts of that shape are
    exactly the ones [clean_text] leaves as they are; so cleaning twice is
    cleaning once. *)
Theorem clean_text_fixed_points : forall s,
  is_clean (clean_text s) = true
  /\ (clean_text s = s <-> is_clean s = true)
  /\ clean_text (clean_text s) = clean_text s.
Proof.
  intros s. split; [apply clean_text_is_clean|]. split.
  - split; [intros <-; apply clean_text_is_clean | apply clean_text_fixes_clean].
  - apply clean_text_fixes_clean, clean_text_is_clean.
Qed.

(** ** [load_urls], lines 14-20 *)

Module UrlFacts.

Lemma append_nil_r : forall s : string, (s ++ "")%string = s.
Proof. induction s as [|c s IH]; simpl; [reflexivity | now rewrite IH]. Qed.

Lemma append_assoc : forall a b c : string,
  ((a ++ b) ++ c)%string = (a ++ (b ++ c))%string.
Proof. induction a as [|x a IH]; intros b c; simpl; [reflexivity | now rewrite IH]. Qed.

Lemma list_of_append : forall a b : string,
  list_ascii_of_string (a ++ b) = list_ascii_of_string a ++ list_ascii_of_string b.
Proof. induction a as [|x a IH]; intros b; simpl; [reflexivity | now rewrite IH]. Qed.

Lemma rstrip_idem : forall s, Str.rstrip (Str.rstrip s) = Str.rstrip s.
Proof.
  induction s as [|c s IH]; simpl; [reflexivity|].
  destruct (Str.is_empty (Str.rstrip s) && Chars.is_space c)%bool eqn:E;
    [reflexivity|].
  simpl. now rewrite IH, E.
Qed.

Lemma lstrip_shape : forall s,
  Str.lstrip s = "" \/
  exists c t, Str.lstrip s = String c t /\ Chars.is_space c = false.
Proof.
  induction s as [|c s IH]; simpl; [now left|].
  destruct (Chars.is_space c) eqn:E; [exact IH|]. right. eauto.
Qed.

Lemma rstrip_cons_visible : forall c t,
  Chars.is_space c = false -> Str.rstrip (String c t) = String c (Str.rstrip t).
Proof. intros c t H. simpl. now rewrite H, andb_false_r. Qed.

Lemma strip_idem : forall s, Str.strip (Str.strip s) = Str.strip s.
Proof.
  intros s. unfold Str.strip.
  destruct (lstrip_shape s) as [->|(c & t & -> & Hc)]; [reflexivity|].
  rewrite (rstrip_cons_visible c t Hc).
  assert (E : Str.lstrip (String c (Str.rstrip t)) = String c (Str.rstrip t))
    by (simpl; now rewrite Hc).
  rewrite E, (rstrip_cons_visible c _ Hc), rstrip_idem. reflexivity.
Qed.

Lemma rstrip_app_space : forall s c,
  Chars.is_space c = true -> Str.rstrip (s ++ String c "") = Str.rstrip s.
Proof.
  induction s as [|x s IH]; intros c Hc; simpl; [now rewrite Hc|].
  now rewrite IH.
Qed.

Lemma lstrip_app_space : forall s c,
  Chars.is_space c = true ->
  Str.lstrip (s ++ String c "") =
  match Str.lstrip s with
  | EmptyString => EmptyString
  | t => (t ++ String c "")%string
  end.
Proof.
  induction s as [|x s IH]; intros c Hc; simpl; [now rewrite Hc|].
  destruct (Chars.is_space x); [now apply IH | reflexivity].
Qed.

(** White space at the end of a line does not count. *)
Lemma strip_app_space : forall s c,
  Chars.is_space c = true -> Str.strip (s ++ String c "") = Str.strip s.
Proof.
  intros s c Hc. unfold Str.strip. rewrite lstrip_app_space by assumption.
  destruct (Str.lstrip s) as [|x t]; [reflexivity|].
  change (String x t ++ String c "")%string with (String x t ++ String c "")%string.
  now apply rstrip_app_space.
Qed.

Lemma no_break_app : forall a b,
  no_break (a ++ b) = (no_break a && no_break b)%bool.
Proof. intros a b. unfold no_break. now rewrite list_of_append, forallb_app. Qed.

Lemma no_break_lstrip : forall s, no_break s = true -> no_break (Str.lstrip s) = true.
Proof.
  unfold no_break. induction s as [|c s IH]; intros H; simpl in *; [reflexivity|].
  apply andb_prop in H. destruct H as [H1 H2].
  destruct (Chars.is_space c); [auto|]. simpl. now rewrite H1, H2.
Qed.

Lemma no_break_rstrip : forall s, no_break s = true -> no_break (Str.rstrip s) = true.
Proof.
  unfold no_break. induction s as [|c s IH]; intros H; simpl in *; [reflexivity|].
  apply andb_prop in H. destruct H as [H1 H2].
  destruct (Str.is_empty (Str.rstrip s) && Chars.is_space c)%bool; [reflexivity|].
  simpl. now rewrite H1, IH.
Qed.

Lemma no_break_strip : forall s, no_break s = true -> no_break (Str.strip s) = true.
Proof. intros s H. now apply no_break_rstrip, no_break_lstrip. Qed.

Lemma lines_from_ok : forall s after_cr cur,
  no_break cur = true -> Forall line_ok (lines_from after_cr cur s).
Proof.
  induction s as [|c s IH]; intros after_cr cur Hcur; simpl.
  - destruct (Str.is_empty cur); constructor; [|constructor].
    exists cur. auto.
  - destruct (N.eqb (Chars.code c) 10) eqn:E10.
    + destruct after_cr; [now apply IH|].
      constructor; [|now apply IH].
      exists cur. split; [assumption|]. right.
      apply N.eqb_eq in E10. unfold newline, Chars.code in *.
      rewrite <- E10, ascii_N_embedding. reflexivity.
    + destruct (N.eqb (Chars.code c) 13) eqn:E13.
      * constructor; [|now apply IH]. exists cur. auto.
      * apply IH. rewrite no_break_app, Hcur. unfold no_break, is_break. simpl.
        now rewrite E10, E13.
Qed.

Lemma newline_is_space : Chars.is_space (ascii_of_N 10) = true.
Proof. reflexivity. Qed.

Lemma strip_app_newline : forall s, Str.strip (s ++ newline) = Str.strip s.
Proof. intros s. apply strip_app_space, newline_is_space. Qed.

Lemma strip_line_no_break : forall l, line_ok l -> no_break (Str.strip l) = true.
Proof.
  intros l (body & Hb & [-> | ->]); [now apply no_break_strip|].
  unfold newline. rewrite strip_app_space by apply newline_is_space.
  now apply no_break_strip.
Qed.

Lemma load_urls_entries : forall text u,
  In u (load_urls (Some text)) -> is_url_entry u = true.
Proof.
  intros text u H. unfold load_urls in H. apply filter_In in H.
  destruct H as [Hin Hkeep]. apply in_map_iff in Hin.
  destruct Hin as (line & <- & Hline).
  apply andb_prop in Hkeep. destruct Hkeep as [H1 H2].
  unfold is_url_entry. rewrite H1, H2, strip_idem, String.eqb_refl. simpl.
  apply strip_line_no_break.
  unfold file_lines in Hline.
  pose proof (lines_from_ok text false "" eq_refl) as HF.
  rewrite Forall_forall in HF. now apply HF.
Qed.

(** Reading a text that starts with a line and its line feed. *)
Lemma lines_from_body : forall u cur rest,
  no_break u = true ->
  lines_from false cur (u ++ rest) = lines_from false (cur ++ u) rest.
Proof.
  induction u as [|c u IH]; intros cur rest H; simpl.
  - now rewrite append_nil_r.
  - unfold no_break in H. simpl in H. apply andb_prop in H. destruct H as [H1 H2].
    unfold is_break in H1. apply negb_true_iff, orb_false_iff in H1.
    destruct H1 as [E10 E13]. rewrite E10, E13.
    rewrite IH by exact H2. now rewrite append_assoc.
Qed.

Lemma file_lines_cons : forall u rest,
  no_break u = true ->
  file_lines (u ++ newline ++ rest) = (u ++ newline)%string :: file_lines rest.
Proof.
  intros u rest H. unfold file_lines. rewrite lines_from_body by assumption.
  reflexivity.
Qed.

Lemma file_lines_last : forall u,
  no_break u = true -> Str.truthy u = true -> file_lines u = [u].
Proof.
  intros u H Ht. unfold file_lines.
  rewrite <- (append_nil_r u) at 1. rewrite lines_from_body by assumption.
  simpl. destruct u; [discriminate | reflexivity].
Qed.

(** A list of entries written one per line is read back as it is. *)
Lemma load_urls_join : forall us,
  forallb is_url_entry us = true ->
  load_urls (Some (Str.join newline us)) = us.
Proof.
  induction us as [|u us IH]; intros H; [reflexivity|].
  simpl in H. apply andb_prop in H. destruct H as [Hu Hus].
  pose proof Hu as Hu'. unfold is_url_entry in Hu'.
  apply andb_prop in Hu'. destruct Hu' as [Hu' Hnb].
  apply andb_prop in Hu'. destruct Hu' as [Hu' Hhash].
  apply andb_prop in Hu'. destruct Hu' as [Htr Hstrip].
  apply String.eqb_eq in Hstrip.
  destruct us as [|u2 us].
  - cbn [Str.join]. unfold load_urls. rewrite file_lines_last by assumption.
    cbn [map filter]. now rewrite Hstrip, Htr, Hhash.
  - specialize (IH Hus). unfold load_urls in *.
    change (Str.join newline (u :: u2 :: us))
      with (u ++ newline ++ Str.join newline (u2 :: us))%string.
    rewrite file_lines_cons by assumption.
    cbn [map filter]. rewrite strip_app_newline.
    rewrite Hstrip, Htr, Hhash. cbn [andb]. now rewrite IH.
Qed.

End UrlFacts.

(** X4.  Every URL loaded from an existing file is not empty, has no white
    space around it, does not begin with "#" and holds no line break. *)
Theorem load_urls_gives_entries : forall text u,
  In u (load_urls (Some text)) ->
  Str.truthy u = true /\ Str.strip u = u /\ starts_with_hash u = false
  /\ no_break u = true.
Proof.
  intros text u H. apply UrlFacts.load_urls_entries in H.
  unfold is_url_entry in H.
  apply andb_prop in H. destruct H as [H Hnb].
  apply andb_prop in H. destruct H as [H Hhash].
  apply andb_prop in H. destruct H as [Htr Hstrip].
  apply String.eqb_eq in Hstrip. apply negb_true_iff in Hhash. auto.
Qed.

Lemma load_urls_gives_entries_witness :
  Str.truthy DETAIL_URL = true /\ Str.strip DETAIL_URL = DETAIL_URL
  /\ starts_with_hash DETAIL_URL = false /\ no_break DETAIL_URL = true.
Proof.
  refine (load_urls_gives_entries
            ("# targets" ++ newline ++ "  " ++ DETAIL_URL ++ " " ++ newline)
            DETAIL_URL _).
  left. reflexivity.
Defined.

(** X5.  The built-in URL is used only when the file is missing: a file
    that exists gives the empty list exactly when each of its lines is
    blank or a comment. *)
Theorem load_urls_default_only_if_missing :
  load_urls None = [DETAIL_URL]
  /\ forall text,
      load_urls (Some text) = [] <->
      (forall line, In line (file_lines text) ->
                    Str.strip line = "" \/ starts_with_hash (Str.strip line) = true).
Proof.
  split; [reflexivity|]. intros text. unfold load_urls. split.
  - intros H line Hin.
    assert (Hk : In (Str.strip line) (map Str.strip (file_lines text)))
      by now apply in_map.
    destruct (Str.truthy (Str.strip line)
              && negb (starts_with_hash (Str.strip line)))%bool eqn:E.
    + exfalso. assert (Hf : In (Str.strip line) []).
      { rewrite <- H. apply filter_In. auto. }
      exact Hf.
    + apply andb_false_iff in E. destruct E as [E|E].
      * left. destruct (Str.strip line); [reflexivity | discriminate].
      * right. now apply negb_false_iff in E.
  - intros H. induction (file_lines text) as [|l ls IH]; [reflexivity|].
    simpl. destruct (H l (or_introl eq_refl)) as [E|E]; rewrite E; simpl;
      rewrite ?andb_false_r; apply IH; intros line Hl; apply H; now right.
Qed.

(** X6.  Writing the loaded URLs to a file, one per line, and loading that
    file gives the same list again. *)
Theorem load_urls_round_trip : forall text,
  load_urls (Some (Str.join newline (load_urls (Some text)))) =
  load_urls (Some text).
Proof.
  intros text. apply UrlFacts.load_urls_join.
  apply forallb_forall. intros u. apply UrlFacts.load_urls_entries.
Qed.

(** ** Post-processing, lines 196-219 *)

Module PostMore.

Import Frame PostFacts OrderFacts.

Lemma sort_sorted_id : forall key l,
  StronglySorted (fun a b => key_leb (key a) (key b) = true) l ->
  sort key l = l.
Proof.
  intros key l H. induction H as [|r l HS IH HF]; [reflexivity|].
  simpl. rewrite IH. destruct l as [|x l']; [reflexivity|].
  simpl. inversion HF as [|? ? Hx _]; subst. now rewrite Hx.
Qed.

Lemma keep_first_nodup_id : forall key l seen,
  NoDup (map key l) -> (forall x, In x l -> ~ In (key x) seen) ->
  keep_first key seen l = l.
Proof.
  intros key. induction l as [|x l IH]; intros seen Hnd Hseen; [reflexivity|].
  simpl. simpl in Hnd. inversion Hnd as [|? ? Hx Hnd']; subst.
  destruct (mem (key x) seen) eqn:Em.
  { apply (mem_In key) in Em. exfalso. exact (Hseen x (or_introl eq_refl) Em). }
  f_equal. apply IH; [assumption|].
  intros y Hy [Heq|Hin].
  - apply Hx. rewrite Heq. now apply in_map.
  - apply (Hseen y); [now right | assumption].
Qed.

Lemma keep_first_subset : forall key l seen r,
  In r (keep_first key seen l) -> In r l.
Proof.
  intros key l seen r H. apply keep_first_in in H.
  destruct H as [_ (pre & post & -> & _)]. apply in_elt.
Qed.



Lemma index_of_none : forall c cols, index_of c cols = None <-> ~ In c cols.
Proof.
  induction cols as [|x cols IH]; simpl; [tauto|].
  destruct (String.eqb x c) eqn:E.
  - apply String.eqb_eq in E. split; [discriminate | intros H; exfalso; auto].
  - apply String.eqb_neq in E. destruct (index_of c cols).
    + split; [discriminate|]. intros H. exfalso.
      destruct (in_dec string_dec c cols) as [Hin|Hn].
      * apply H. now right.
      * apply IH in Hn. discriminate.
    + split; [|reflexivity]. intros _ [H|H]; [contradiction|].
      now apply (proj1 IH).
Qed.

Lemma has_column_in : forall df c, has_column df c = true <-> In c (columns df).
Proof.
  intros df c. unfold has_column.
  destruct (index_of c (columns df)) eqn:E; simpl.
  - split; [|reflexivity]. intros _.
    destruct (in_dec string_dec c (columns df)) as [H|H]; [assumption|].
    apply index_of_none in H. congruence.
  - split; [discriminate|]. intros H. apply index_of_none in E. contradiction.
Qed.

(** The table after post-processing, whatever table was loaded. *)
Lemma post_process_some : forall df df',
  post_process df = Some df' ->
  df' = mk_frame HEADERS
          (sort date_stock_key
             (keep_first stock_key []
                (map (fun row => map (cell (columns df) row) HEADERS) (rows df)))).
Proof.
  intros df df' H. unfold post_process in H.
  destruct (select HEADERS df) as [sel|] eqn:E; [|discriminate].
  unfold select in E. destruct (forallb _ _); [|discriminate].
  injection E as <-. injection H as <-. reflexivity.
Qed.

Lemma cells_eight : forall r,
  List.length r = 8 -> map (cell HEADERS r) HEADERS = r.
Proof.
  intros r H.
  destruct r as [|a [|b [|c [|d [|e [|f [|g [|h [|i r]]]]]]]]]; try discriminate.
  reflexivity.
Qed.

Lemma select_eight : forall l,
  Forall (fun r => List.length r = 8) l ->
  select HEADERS (mk_frame HEADERS l) = Some (mk_frame HEADERS l).
Proof.
  intros l H. unfold select.
  replace (forallb (has_column (mk_frame HEADERS l)) HEADERS) with true by reflexivity.
  cbn [columns rows]. do 2 f_equal.
  rewrite <- (map_id l) at 2. apply map_ext_in.
  intros r Hr. apply cells_eight. rewrite Forall_forall in H. now apply H.
Qed.

(** A table of eight-cell rows that is sorted and free of duplicate stock
    numbers comes out of post-processing as it went in. *)
Lemma post_process_fixed : forall l,
  Forall (fun r => List.length r = 8) l ->
  NoDup (map stock_key l) ->
  StronglySorted (fun a b => key_leb (date_stock_key a) (date_stock_key b) = true) l ->
  post_process (mk_frame HEADERS l) = Some (mk_frame HEADERS l).
Proof.
  intros l H8 Hnd Hs. unfold post_process. rewrite select_eight by assumption.
  cbn. unfold drop_duplicates, sort_values. cbn [columns rows].
  change (key_of HEADERS ["Stock No"]) with stock_key.
  change (key_of HEADERS ["Auction Date"; "Stock No"]) with date_stock_key.
  rewrite keep_first_nodup_id by (auto; intros ? ? []).
  now rewrite sort_sorted_id.
Qed.


Lemma row_of_length : forall v, List.length (row_of v) = 8.
Proof. reflexivity. Qed.

End PostMore.

Import Frame PostFacts.

(** The rows post-processing leaves of a list of records. *)
Lemma processed_rows_facts : forall vs,
  let out := sort date_stock_key (keep_first stock_key [] (map row_of vs)) in
  (forall r, In r out -> In r (map row_of vs))
  /\ NoDup (map stock_key out)
  /\ StronglySorted
       (fun a b => key_leb (date_stock_key a) (date_stock_key b) = true) out
  /\ Permutation out (keep_first stock_key [] (map row_of vs)).
Proof.
  intros vs out.
  pose proof (sort_perm date_stock_key (keep_first stock_key [] (map row_of vs))) as HP.
  fold out in HP. repeat split.
  - intros r H. eapply Permutation_in in H; [|exact HP].
    eapply PostMore.keep_first_subset. exact H.
  - eapply Permutation_NoDup; [symmetry; apply Permutation_map, HP|].
    apply keep_first_nodup.
  - apply sort_sorted.
  - exact HP.
Qed.

(** X7.  Post-processing a file that has been post-processed changes
    nothing: run on the file written from any list of records, the stage
    gives a file that a second run of the stage leaves as it is. *)
Theorem post_process_stage_idempotent : forall vs,
  post_process_stage no_fault (post_process_stage no_fault (write_csv vs)) =
  post_process_stage no_fault (write_csv vs).
Proof.
  intros vs.
  destruct (processed_rows_facts vs) as (Hin & Hnd & Hs & _).
  assert (E1 : post_process_stage no_fault (write_csv vs) =
               HEADERS :: sort date_stock_key
                            (keep_first stock_key [] (map row_of vs))).
  { unfold post_process_stage, write_csv, records, read_csv.
    cbn [columns rows frame_of_rows].
    change (mk_frame HEADERS (map row_of vs)) with (frame_of_rows vs).
    now rewrite post_process_rows. }
  rewrite E1. unfold post_process_stage, read_csv.
  rewrite PostMore.post_process_fixed; [reflexivity | | assumption | assumption].
  apply Forall_forall. intros r Hr. apply Hin in Hr.
  apply in_map_iff in Hr. destruct Hr as (v & <- & _). reflexivity.
Qed.




(** X10.  Post-processing goes through exactly when every header is a
    column of the loaded table; when a header is missing the stage leaves
    the file as it was, whatever else happens. *)
Theorem post_process_needs_every_header :
  (forall df, (exists df', post_process df = Some df') <->
              (forall h, In h HEADERS -> In h (columns df)))
  /\ forall f header body h,
      In h HEADERS -> ~ In h header ->
      post_process_stage f (header :: body) = header :: body.
Proof.
  assert (Hsel : forall df, forallb (has_column df) HEADERS = true <->
                            (forall h, In h HEADERS -> In h (columns df))).
  { intros df. rewrite forallb_forall. split; intros H h Hh.
    - now apply PostMore.has_column_in, H.
    - now apply PostMore.has_column_in, H. }
  assert (Hpp : forall df, (exists df', post_process df = Some df') <->
                           forallb (has_column df) HEADERS = true).
  { intros df. unfold post_process, select.
    destruct (forallb (has_column df) HEADERS); split; intros H; eauto.
    - destruct H as [? H]. discriminate.
    - discriminate. }
  split.
  - intros df. rewrite Hpp. apply Hsel.
  - intros f header body h Hh Hn. apply post_process_stage_early_failure.
    destruct (read_csv f (header :: body)) as [df|] eqn:E; [|auto].
    right. right. right. exists df. split; [reflexivity|].
    destruct (post_process df) as [df'|] eqn:Ep; [|reflexivity].
    exfalso. apply Hn.
    assert (Hc : columns df = header).
    { unfold read_csv in E. destruct f; try discriminate; now injection E as <-. }
    rewrite <- Hc. apply (proj1 (Hsel df)); [|assumption].
    apply Hpp. eauto.
Qed.

Lemma post_process_needs_every_header_witness :
  post_process_stage no_fault
    [["Stock No"; "Make"]; ["2753101"; "HONDA"]]
  = [["Stock No"; "Make"]; ["2753101"; "HONDA"]].
Proof.
  refine (proj2 post_process_needs_every_header no_fault
            ["Stock No"; "Make"] [["2753101"; "HONDA"]] "URL" _ _).
  - right. right. right. right. right. left. reflexivity.
  - intros [H|[H|[]]]; discriminate.
Defined.

(** X11.  Post-processing puts the columns in the order of the headers
    and drops the others without touching a value: a row of the result has
    eight cells, and they are the cells some loaded row has under the eight
    headers. *)
Theorem post_process_keeps_cells : forall df df' r',
  post_process df = Some df' -> In r' (rows df') ->
  List.length r' = 8
  /\ exists r, In r (rows df)
               /\ forall h, In h HEADERS ->
                            cell HEADERS r' h = cell (columns df) r h.
Proof.
  intros df df' r' H Hin. apply PostMore.post_process_some in H. subst df'.
  cbn [rows] in Hin.
  eapply Permutation_in in Hin; [|apply sort_perm].
  apply PostMore.keep_first_subset in Hin. apply in_map_iff in Hin.
  destruct Hin as (r & <- & Hr). split; [reflexivity|].
  exists r. split; [assumption|].
  intros h Hh. simpl in Hh.
  repeat (destruct Hh as [<-|Hh]; [reflexivity|]). contradiction.
Qed.

Lemma post_process_keeps_cells_witness :
  List.length ["2753101"; "HONDA"; "Civic"; "2021"; "2024-9-1"; "u1"; "$9,000"; ""] = 8
  /\ exists r,
      In r [["u1"; "2753101"; "HONDA"; "Civic"; "2021"; "n"; "2024-9-1"; "$9,000"; ""]]
      /\ forall h, In h HEADERS ->
           cell HEADERS
                ["2753101"; "HONDA"; "Civic"; "2021"; "2024-9-1"; "u1"; "$9,000"; ""] h
           = cell ["URL"; "Stock No"; "Make"; "Model"; "Year"; "Notes";
                   "Auction Date"; "ACV Cost"; "Repair Cost"] r h.
Proof.
  refine (post_process_keeps_cells
            (mk_frame ["URL"; "Stock No"; "Make"; "Model"; "Year"; "Notes";
                       "Auction Date"; "ACV Cost"; "Repair Cost"]
               [["u1"; "2753101"; "HONDA"; "Civic"; "2021"; "n"; "2024-9-1";
                 "$9,000"; ""]])
            _ _ eq_refl _).
  left. reflexivity.
Defined.
(** ** The stock number taken from the URL, lines 83-91 *)

Module StockShape.

Import Wording.

Lemma first_digit_run_length : forall n a,
  first_digit_run n a = [] \/ n <= List.length (first_digit_run n a).
Proof.
  induction a as [|c a IH]; [now left|]. cbn [first_digit_run].
  destruct (n <=? List.length (leading_digits (c :: a)))%nat eqn:E; [|exact IH].
  right. now apply Nat.leb_le.
Qed.

Lemma first_digit_run_inside : forall n a,
  exists pre post, a = pre ++ first_digit_run n a ++ post.
Proof.
  induction a as [|c a IH]; [exists [], []; reflexivity|].
  cbn [first_digit_run].
  destruct (n <=? List.length (leading_digits (c :: a)))%nat.
  - exists [], (skipn (List.length (leading_digits (c :: a))) (c :: a)).
    apply StockFacts.leading_digits_split.
  - destruct IH as (pre & post & IH). exists (c :: pre), post.
    simpl. now rewrite <- IH.
Qed.

Lemma string_length_of_list : forall l,
  String.length (string_of_list_ascii l) = List.length l.
Proof. induction l as [|c l IH]; simpl; [reflexivity | now rewrite IH]. Qed.

Lemma string_of_list_app : forall a b,
  string_of_list_ascii (a ++ b) =
  (string_of_list_ascii a ++ string_of_list_ascii b)%string.
Proof. induction a as [|c a IH]; intros b; simpl; [reflexivity | now rewrite IH]. Qed.

End StockShape.

(** X12.  When the page gives no stock number, the stock number stored is
    a piece of the URL made of digits only, and it is either empty or at
    least five digits long. *)
Theorem url_stock_number_shape : forall d url,
  Str.truthy (find_labeled_value d stock_labels) = false ->
  let s := Stock_No (parse_vehicle d url) in
  all_digits s = true
  /\ (s = "" \/ 5 <= String.length s)
  /\ exists pre post, url = (pre ++ s ++ post)%string.
Proof.
  intros d url H.
  assert (E : Stock_No (parse_vehicle d url) = first_run_of_digits 5 url).
  { unfold parse_vehicle. destruct (title_fallback _ _ _ _) as [[y mk] mo].
    cbn [Stock_No]. rewrite H.
    rewrite StockFacts.clean_text_stock_from_url.
    apply StockFacts.stock_from_url_first_run. }
  cbv zeta. rewrite E. unfold first_run_of_digits. split; [|split].
  - unfold all_digits. rewrite list_ascii_of_string_of_list_ascii.
    apply StockFacts.first_digit_run_all.
  - rewrite StockShape.string_length_of_list.
    destruct (StockShape.first_digit_run_length 5 (list_ascii_of_string url))
      as [-> | Hl]; [now left | now right].
  - destruct (StockShape.first_digit_run_inside 5 (list_ascii_of_string url))
      as (pre & post & Hs).
    exists (string_of_list_ascii pre), (string_of_list_ascii post).
    rewrite <- !StockShape.string_of_list_app, <- Hs.
    symmetry. apply string_of_list_ascii_of_string.
Qed.

Lemma url_stock_number_shape_witness :
  all_digits "2753101" = true
  /\ ("2753101" = "" \/ 5 <= String.length "2753101")
  /\ exists pre post, DETAIL_URL = (pre ++ "2753101" ++ post)%string.
Proof. exact (url_stock_number_shape [] DETAIL_URL eq_refl). Defined.

(** ** The browser session and the whole run, lines 132-219 *)

Module RunFacts.

Import Browser.










Lemma navigate_count : forall w url h,
  let h' := fst (navigate w url h) in
  count_goto h < count_goto h' /\ count_goto h' <= count_goto h + 3.
Proof.
  intros w url h. unfold navigate, try_except, goto, risky, bind,
    wait_for_timeout, quiet.
  destruct (fails w h _); [|simpl; lia].
  destruct (fails w _ _); [|simpl; lia].
  destruct (fails w _ _); simpl; lia.
Qed.

Lemma visit_count : forall w url h,
  let h' := fst (visit w url h) in
  count_goto h < count_goto h' /\ count_goto h' <= count_goto h + 3.
Proof.
  intros w url h. pose proof (navigate_count w url h) as H.
  unfold visit, bind. destruct (navigate w url h) as [h1 [[]|]]; [|exact H].
  unfold wait_for_timeout, quiet, try_except, risky, content, ret.
  cbn [fst] in H. destruct (fails w _ _); simpl; exact H.
Qed.

End RunFacts.

Import Browser.


(** X14.  Every URL is tried at least once and at most three times: over
    the whole loop the number of navigation calls grows by no more than
    three per URL, and by one per URL at least when the loop gets to its
    end. *)
Theorem scrape_navigation_calls : forall w urls h,
  let h' := fst (scrape w urls h) in
  count_goto h' <= count_goto h + 3 * List.length urls
  /\ (snd (scrape w urls h) <> Raised ->
      count_goto h + List.length urls <= count_goto h').
Proof.
  intros w urls. induction urls as [|u urls IH]; intros h; cbv zeta.
  - cbn. split; lia.
  - cbn [scrape]. unfold bind at 1 3 5.
    pose proof (RunFacts.visit_count w u h) as Hv. cbv zeta in Hv.
    destruct (visit w u h) as [h1 [row|]]; cbn [fst snd] in *.
    + specialize (IH h1). cbv zeta in IH. unfold bind, ret.
      destruct (scrape w urls h1) as [h2 [rows|]]; cbn [fst snd List.length] in *.
      * split; [lia|]. intros _. assert (Ok rows <> Raised) by discriminate.
        destruct IH as [_ IH]. specialize (IH H). lia.
      * split; [lia | intros C; now contradiction C].
    + split; [cbn [List.length]; lia | intros C; now contradiction C].
Qed.

Lemma scrape_navigation_calls_witness :
  count_goto (fst (scrape Worlds.calm [DETAIL_URL; "u2"] [])) <= 0 + 3 * 2
  /\ 0 + 2 <= count_goto (fst (scrape Worlds.calm [DETAIL_URL; "u2"] [])).
Proof.
  split.
  - exact (proj1 (scrape_navigation_calls Worlds.calm [DETAIL_URL; "u2"] [])).
  - refine (proj2 (scrape_navigation_calls Worlds.calm [DETAIL_URL; "u2"] []) _).
    discriminate.
Defined.





(** ** The matcher finds a match exactly when there is one *)

Module TightFacts.

Import Re ReRel ReTight.

Create HintDb tight.
#[local] Hint Constructors spans : tight.

Lemma drop_0 : forall hi, drop 0 hi = hi.
Proof. intros [h|]; simpl; [now rewrite Nat.sub_0_r | reflexivity]. Qed.

Lemma drop_S : forall lo hi, drop (S lo) hi = drop lo (option_map pred hi).
Proof. intros lo [h|]; simpl; [f_equal; lia | reflexivity]. Qed.

Lemma extra_S : forall lo hi st,
  extra (S lo) hi st = extra lo (option_map pred hi) st.
Proof. intros lo [h|] st; simpl; [lia | reflexivity]. Qed.

Section Repetition.

Variable r : regex.
Hypothesis run_r_sound : forall st k res,
  run r st k = Some res -> exists st', spans r st st' /\ k st' = Some res.

Lemma rep_max_tight : forall n hi st k res,
  fits n hi -> rep_max n (run r) st k = Some res ->
  exists st', spans (Rep 0 hi r) st st' /\ k st' = Some res.
Proof.
  induction n as [|n IH]; intros hi st k res Hf H; simpl in H.
  - exists st. auto with tight.
  - destruct (run r st _) as [res0|] eqn:E.
    + injection H as ->.
      apply run_r_sound in E. destruct E as (st1 & Hs & Hk).
      destruct (pos st <? pos st1)%nat eqn:Hp; [|discriminate].
      apply Nat.ltb_lt in Hp.
      apply (IH (option_map pred hi)) in Hk.
      * destruct Hk as (st' & Hs' & Hk'). exists st'. split; [|assumption].
        eapply sp_rep_may; try eassumption.
        destruct hi as [[|h]|]; simpl in Hf; try discriminate. lia.
      * destruct hi as [h|]; simpl in *; [lia | exact I].
    + exists st. auto with tight.
Qed.

Lemma rep_min_tight : forall lo hi st k res,
  rep_min lo (run r) st k = Some res ->
  exists st1,
    (forall st', spans (Rep 0 (drop lo hi) r) st1 st' -> spans (Rep lo hi r) st st')
    /\ k st1 = Some res.
Proof.
  induction lo as [|lo IH]; intros hi st k res H; simpl in H.
  - exists st. split; [|assumption]. intros st'. now rewrite drop_0.
  - apply run_r_sound in H. destruct H as (sta & Hs & Hk).
    apply (IH (option_map pred hi)) in Hk. destruct Hk as (st1 & Hall & Hk).
    exists st1. split; [|assumption].
    intros st' Hst'. rewrite drop_S in Hst'.
    eapply sp_rep_must; [eassumption | auto].
Qed.

End Repetition.

(** Every answer of the matcher is a match. *)
Lemma run_sound_tight : forall r st k res,
  run r st k = Some res -> exists st', spans r st st' /\ k st' = Some res.
Proof.
  induction r as [|p|r1 IH1 r2 IH2|r1 IH1 r2 IH2|lo hi r IH|n r IH| | |];
    intros st k res H; simpl in H.
  - exists st. auto with tight.
  - destruct (after st) as [|c rest] eqn:Ea; [discriminate|].
    destruct (p c) eqn:Ep; [|discriminate].
    exists (advance c rest st). auto with tight.
  - apply IH1 in H. destruct H as (st1 & H1 & H).
    apply IH2 in H. destruct H as (st2 & H2 & H).
    exists st2. eauto with tight.
  - destruct (run r1 st k) as [res0|] eqn:E.
    + injection H as ->. apply IH1 in E. destruct E as (st' & ? & ?).
      exists st'. auto with tight.
    + apply IH2 in H. destruct H as (st' & ? & ?).
      exists st'. auto with tight.
  - apply (rep_min_tight r IH lo hi) in H. destruct H as (st1 & Hall & H).
    apply (rep_max_tight r IH _ (drop lo hi)) in H.
    + destruct H as (st' & Hs & H). exists st'. auto.
    + destruct hi as [h|]; simpl; [lia | exact I].
  - apply IH in H. destruct H as (st' & Hs & H).
    exists (set_cap n st st'). auto with tight.
  - destruct (before st) eqn:E; [|discriminate]. exists st. auto with tight.
  - destruct (at_eol st) eqn:E; [|discriminate]. exists st. auto with tight.
  - destruct (at_word_boundary st) eqn:E; [|discriminate]. exists st. auto with tight.
Qed.

(** *** A continuation that accepts more makes the matcher accept more *)

Section Mono.

Variable mr : matcher.
Hypothesis mr_mono : forall st k k',
  weaker k k' -> mr st k <> None -> mr st k' <> None.

Lemma rep_min_mono : forall n st k k',
  weaker k k' -> rep_min n mr st k <> None -> rep_min n mr st k' <> None.
Proof.
  induction n as [|n IH]; intros st k k' Hw H; simpl in *; [now apply Hw|].
  eapply mr_mono; [|exact H]. intros s Hs. eapply IH; eassumption.
Qed.

Lemma rep_max_base : forall n st k, k st <> None -> rep_max n mr st k <> None.
Proof.
  intros [|n] st k H; simpl; [assumption|].
  destruct (mr st _); [discriminate | assumption].
Qed.

(** More optional copies allowed, or a weaker continuation: still a
    match. *)
Lemma rep_max_mono : forall n m st k k',
  n <= m -> weaker k k' ->
  rep_max n mr st k <> None -> rep_max m mr st k' <> None.
Proof.
  induction n as [|n IH]; intros m st k k' Hnm Hw H.
  - simpl in H. apply rep_max_base. now apply Hw.
  - destruct m as [|m]; [lia|]. simpl in *.
    destruct (mr st (fun st1 => if (pos st <? pos st1)%nat
                                then rep_max m mr st1 k' else None)) eqn:E';
      [discriminate|].
    destruct (mr st (fun st1 => if (pos st <? pos st1)%nat
                                then rep_max n mr st1 k else None)) eqn:E.
    + exfalso. revert E'. eapply mr_mono; [|rewrite E; discriminate].
      intros q Hq. destruct (pos st <? pos q)%nat; [|assumption].
      eapply IH; [| |exact Hq]; [lia | assumption].
    + now apply Hw.
Qed.

End Mono.

Lemma run_mono : forall r st k k',
  weaker k k' -> run r st k <> None -> run r st k' <> None.
Proof.
  induction r as [|p|r1 IH1 r2 IH2|r1 IH1 r2 IH2|lo hi r IH|n r IH| | |];
    intros st k k' Hw H; simpl in *.
  - now apply Hw.
  - destruct (after st) as [|c rest]; [assumption|].
    destruct (p c); [now apply Hw | assumption].
  - eapply IH1; [|exact H]. intros s Hs. eapply IH2; eassumption.
  - destruct (run r1 st k') eqn:E'; [discriminate|].
    destruct (run r1 st k) eqn:E.
    + exfalso. revert E'. eapply IH1; [eassumption | rewrite E; discriminate].
    + eapply IH2; eassumption.
  - eapply (rep_min_mono (run r) IH); [|exact H].
    intros s Hs. eapply (rep_max_mono (run r) IH); [reflexivity | eassumption | exact Hs].
  - eapply IH; [|exact H]. intros s Hs. now apply Hw.
  - destruct (before st); [now apply Hw | assumption].
  - destruct (at_eol st); [now apply Hw | assumption].
  - destruct (at_word_boundary st); [now apply Hw | assumption].
Qed.

(** *** Where a match leads *)

Lemma spans_reaches : forall P r st st',
  spans r st st' -> classes_within P r ->
  exists w, reaches w st st' /\ forallb P w = true.
Proof.
  intros P r st st' H. induction H; intros HP; simpl in HP;
    try (exists []; split; [apply ReFacts.reaches_refl | reflexivity]).
  - exists [c]. split.
    + split; simpl; [assumption | reflexivity].
    + simpl. rewrite (HP c H0). reflexivity.
  - destruct HP as [HP1 HP2].
    destruct (IHspans1 HP1) as (w1 & R1 & F1).
    destruct (IHspans2 HP2) as (w2 & R2 & F2).
    exists (w1 ++ w2). split; [eapply ReFacts.reaches_trans; eassumption|].
    rewrite forallb_app, F1, F2. reflexivity.
  - apply IHspans, HP.
  - apply IHspans, HP.
  - destruct (IHspans1 HP) as (w1 & R1 & F1).
    destruct (IHspans2 HP) as (w2 & R2 & F2).
    exists (w1 ++ w2). split; [eapply ReFacts.reaches_trans; eassumption|].
    rewrite forallb_app, F1, F2. reflexivity.
  - destruct (IHspans1 HP) as (w1 & R1 & F1).
    destruct (IHspans2 HP) as (w2 & R2 & F2).
    exists (w1 ++ w2). split; [eapply ReFacts.reaches_trans; eassumption|].
    rewrite forallb_app, F1, F2. reflexivity.
  - destruct (IHspans HP) as (w & [R1 R2] & F).
    exists w. split; [split; assumption | assumption].
Qed.

Lemma spans_forward : forall r st st',
  spans r st st' -> exists w, reaches w st st'.
Proof.
  intros r st st' H.
  destruct (spans_reaches (fun _ => true) r st st' H
              (GroupFacts.classes_within_any r)) as (w & Hw & _).
  now exists w.
Qed.

Lemma reaches_pos : forall w st st',
  reaches w st st' ->
  pos st' = pos st + List.length w
  /\ List.length (after st) = List.length w + List.length (after st').
Proof.
  intros w st st' [H1 H2]. unfold pos. rewrite H1, H2.
  rewrite !length_app, length_rev. lia.
Qed.

(** Every match is found, by this path or by an earlier one. *)
Lemma run_complete : forall r st st',
  spans r st st' -> forall k, k st' <> None -> run r st k <> None.
Proof.
  intros r st st' H. induction H; intros k Hk; cbn [run].
  - assumption.
  - rewrite H, H0. assumption.
  - apply IHspans1. now apply IHspans2.
  - specialize (IHspans k Hk). destruct (run r1 st k); [discriminate | contradiction].
  - destruct (run r1 st k); [discriminate | now apply IHspans].
  - cbn [rep_min]. apply (rep_max_base (run r)). assumption.
  - cbn [rep_min]. apply IHspans1.
    specialize (IHspans2 k Hk). cbn [run] in IHspans2.
    eapply (rep_min_mono (run r) (run_mono r)); [|exact IHspans2].
    intros s Hs. now rewrite extra_S.
  - cbn [rep_min].
    specialize (IHspans2 k Hk). cbn [run rep_min] in IHspans2.
    assert (Hn : exists n, extra 0 hi st = S n
                           /\ extra 0 (option_map pred hi) st1 <= n).
    { destruct hi as [[|h]|]; simpl.
      - contradiction.
      - exists h. split; lia.
      - destruct (spans_forward _ _ _ H0) as (w & Hw).
        apply reaches_pos in Hw. destruct Hw as [Hp Hl].
        exists (List.length (after st) - 1). split; lia. }
    destruct Hn as (n & -> & Hle). cbn [rep_max].
    match goal with |- match ?x with _ => _ end <> None =>
      assert (Hx : x <> None); [|destruct x; [discriminate | contradiction]] end.
    apply IHspans1. rewrite (proj2 (Nat.ltb_lt _ _) H1).
    eapply (rep_max_mono (run r) (run_mono r)); [exact Hle | | exact IHspans2].
    intros s Hs. exact Hs.
  - apply IHspans. assumption.
  - rewrite H. assumption.
  - rewrite H. assumption.
  - rewrite H. assumption.
Qed.

(** *** Matching at a place, and searching *)

Lemma match_here_tight : forall r adv st f,
  match_here r adv st = Some f -> fst f = st /\ spans r st (snd f).
Proof.
  unfold match_here. intros r adv st f H.
  destruct (run r st (accept adv st)) as [st'|] eqn:E; [|discriminate].
  injection H as <-. apply run_sound_tight in E. destruct E as (st1 & Hs & Hk).
  unfold accept in Hk. destruct (adv && _)%bool; [discriminate|].
  injection Hk as <-. auto.
Qed.

Lemma match_here_complete : forall r st st',
  spans r st st' -> match_here r false st <> None.
Proof.
  intros r st st' H. unfold match_here.
  pose proof (run_complete r st st' H (accept false st)) as Hc.
  destruct (run r st (accept false st)); [discriminate|].
  exfalso. apply Hc; [discriminate | reflexivity].
Qed.

(** [re.match] succeeds exactly when the pattern matches at the start. *)
Lemma match_iff : forall r s,
  is_some (match_ r s) = true <-> exists st', spans r (start s) st'.
Proof.
  intros r s. unfold match_. split.
  - destruct (match_here r false _) as [f|] eqn:E; [|discriminate].
    intros _. apply match_here_tight in E. destruct E as [_ E]. eauto.
  - intros (st' & H). apply match_here_complete in H.
    unfold start in H. destruct (match_here r false _); [reflexivity | contradiction].
Qed.

(** A match found by scanning starts somewhere in the subject. *)
Lemma search_from_tight : forall r a adv b f,
  search_from r adv b a = Some f ->
  exists pre suf, a = pre ++ suf
                  /\ fst f = mk_state (rev pre ++ b) suf []
                  /\ spans r (fst f) (snd f).
Proof.
  induction a as [|c a IH]; intros adv b f H; simpl in H.
  - destruct (match_here r adv _) eqn:E; [|discriminate].
    injection H as <-. apply match_here_tight in E. destruct E as [E1 E2].
    exists [], []. rewrite E1 in *. auto.
  - destruct (match_here r adv _) eqn:E.
    + injection H as <-. apply match_here_tight in E. destruct E as [E1 E2].
      exists [], (c :: a). rewrite E1 in *. auto.
    + apply IH in H. destruct H as (pre & suf & -> & Hf & Hs).
      exists (c :: pre), suf. split; [reflexivity|]. split; [|assumption].
      rewrite Hf. simpl. now rewrite <- app_assoc.
Qed.

(** Scanning finds a match when the pattern matches somewhere. *)
Lemma search_from_complete : forall r pre suf b st',
  spans r (mk_state (rev pre ++ b) suf []) st' ->
  search_from r false b (pre ++ suf) <> None.
Proof.
  intros r. induction pre as [|c pre IH]; intros suf b st' H.
  - simpl in H. apply match_here_complete in H.
    destruct suf as [|x suf]; simpl;
      destruct (match_here r false _); try discriminate; contradiction.
  - simpl. destruct (match_here r false _); [discriminate|].
    apply (IH suf (c :: b) st').
    simpl in H. now rewrite <- app_assoc in H.
Qed.

End TightFacts.

(** ** The label pattern, line 45 *)

Module LabelFacts.

Import Re ReRel ReTight TightFacts LabelShape.

Ltac inv H := inversion H; subst; clear H.

Lemma spans_seq_inv : forall r1 r2 st st',
  spans (Seq r1 r2) st st' -> exists st1, spans r1 st st1 /\ spans r2 st1 st'.
Proof. intros r1 r2 st st' H. inv H. eauto. Qed.

Lemma spans_alt_inv : forall r1 r2 st st',
  spans (Alt r1 r2) st st' -> spans r1 st st' \/ spans r2 st st'.
Proof. intros r1 r2 st st' H. inv H; auto. Qed.

Lemma spans_group_inv : forall n r st st',
  spans (Group n r) st st' -> exists st1, spans r st st1 /\ st' = set_cap n st st1.
Proof. intros n r st st' H. inv H. eauto. Qed.

Lemma spans_chr_inv : forall p st st',
  spans (Chr p) st st' ->
  exists c rest, after st = c :: rest /\ p c = true /\ st' = advance c rest st.
Proof. intros p st st' H. inv H. eauto. Qed.

Lemma spans_eps_inv : forall st st', spans Eps st st' -> st' = st.
Proof. intros st st' H. now inv H. Qed.

Lemma spans_bol_inv : forall st st', spans Bol st st' -> st' = st /\ before st = [].
Proof. intros st st' H. inv H. auto. Qed.

Lemma spans_eol_inv : forall st st', spans Eol st st' -> st' = st /\ at_eol st = true.
Proof. intros st st' H. inv H. auto. Qed.

Lemma spans_wordb_inv : forall st st',
  spans WordB st st' -> st' = st /\ at_word_boundary st = true.
Proof. intros st st' H. inv H. auto. Qed.

(** No copy is left to take. *)
Lemma spans_rep_done : forall r st st', spans (Rep 0 (Some 0) r) st st' -> st' = st.
Proof. intros r st st' H. inv H; [reflexivity | contradiction]. Qed.

(** A mandatory copy comes first. *)
Lemma spans_rep_must_inv : forall lo hi r st st',
  spans (Rep (S lo) hi r) st st' ->
  exists st1, spans r st st1 /\ spans (Rep lo (option_map pred hi) r) st1 st'.
Proof. intros lo hi r st st' H. inv H. eauto. Qed.

(** [r?] *)
Lemma spans_opt_inv : forall r st st',
  spans (opt r) st st' -> st' = st \/ spans r st st'.
Proof.
  intros r st st' H. unfold opt in H. inv H; [now left|].
  right. simpl in H7. apply spans_rep_done in H7. now subst.
Qed.

Ltac seq_inv H s H1 :=
  apply spans_seq_inv in H; destruct H as (s & H1 & H).

Lemma reaches_chr : forall c rest st,
  after st = c :: rest -> reaches [c] st (advance c rest st).
Proof. intros c rest st H. split; [exact H | reflexivity]. Qed.

Lemma spans_class_star : forall p st st',
  spans (star (Chr p)) st st' -> exists w, reaches w st st' /\ forallb p w = true.
Proof.
  intros p st st' H. eapply spans_reaches; [exact H|]. simpl. auto.
Qed.

Lemma spans_escape_ci : forall l st st',
  spans (escape_ci l) st st' ->
  exists l', reaches l' st st' /\ same_letters l' (list_ascii_of_string l).
Proof.
  induction l as [|c l IH]; intros st st' H; simpl in H.
  - apply spans_eps_inv in H. subst. exists []. split;
      [apply ReFacts.reaches_refl | reflexivity].
  - seq_inv H s1 H1. apply spans_chr_inv in H1.
    destruct H1 as (x & rest & Ha & Hx & ->).
    apply IH in H. destruct H as (l' & Hr & Hl).
    exists (x :: l'). split.
    + apply (ReFacts.reaches_trans [x] l' _ (advance x rest st));
        [now apply reaches_chr | assumption].
    + unfold same_letters in *. simpl. unfold chr_ci, Chars.eq_ci in Hx.
      apply Ascii.eqb_eq in Hx. now rewrite Hl, Hx.
Qed.

Lemma spans_alts : forall labels st st',
  labels <> [] -> spans (alts (map escape_ci labels)) st st' ->
  exists l, In l labels /\ spans (escape_ci l) st st'.
Proof.
  induction labels as [|l labels IH]; intros st st' Hne H; [contradiction|].
  destruct labels as [|l2 labels].
  - exists l. split; [now left | exact H].
  - cbn [map alts] in H. apply spans_alt_inv in H. destruct H as [H|H].
    + exists l. split; [now left | exact H].
    + destruct (IH st st') as (x & Hx & Hs); [discriminate | exact H|].
      exists x. split; [now right | exact Hs].
Qed.

Lemma build_alts : forall labels l st st',
  In l labels -> spans (escape_ci l) st st' ->
  spans (alts (map escape_ci labels)) st st'.
Proof.
  induction labels as [|x labels IH]; intros l st st' Hin H; [contradiction|].
  destruct labels as [|x2 labels].
  - destruct Hin as [->|[]]. exact H.
  - cbn [map alts]. destruct Hin as [->|Hin].
    + now apply sp_alt_l.
    + apply sp_alt_r. now apply (IH l).
Qed.

Lemma build_chr : forall (p : ascii -> bool) c b rest cs,
  p c = true ->
  spans (Chr p) (mk_state b (c :: rest) cs) (mk_state (c :: b) rest cs).
Proof.
  intros p c b rest cs H.
  exact (sp_chr p c rest (mk_state b (c :: rest) cs) eq_refl H).
Qed.

Lemma rev_cons_app : forall (c : ascii) w b, rev (c :: w) ++ b = rev w ++ c :: b.
Proof. intros c w b. simpl. now rewrite <- app_assoc. Qed.

Lemma build_class_star : forall p w b rest cs,
  forallb p w = true ->
  spans (star (Chr p)) (mk_state b (w ++ rest) cs) (mk_state (rev w ++ b) rest cs).
Proof.
  intros p. induction w as [|c w IH]; intros b rest cs H.
  - apply sp_rep_stop.
  - simpl in H. apply andb_prop in H. destruct H as [Hc Hw].
    rewrite rev_cons_app. unfold star.
    eapply (sp_rep_may None); [discriminate | | | ].
    + apply build_chr. exact Hc.
    + unfold pos. simpl. lia.
    + apply IH. exact Hw.
Qed.

Lemma build_escape_ci : forall l l' b rest cs,
  same_letters l' (list_ascii_of_string l) ->
  spans (escape_ci l) (mk_state b (l' ++ rest) cs) (mk_state (rev l' ++ b) rest cs).
Proof.
  unfold same_letters.
  induction l as [|c l IH]; intros l' b rest cs H; destruct l' as [|x l'];
    try discriminate.
  - apply sp_eps.
  - simpl in H. injection H as Hx Hl. rewrite rev_cons_app. cbn [escape_ci].
    eapply sp_seq.
    + apply build_chr. unfold Chars.eq_ci. rewrite Hx. apply Ascii.eqb_refl.
    + now apply IH.
Qed.

Lemma build_opt_colon : forall colon b rest cs,
  colon = [] \/ colon = [":"%char] ->
  spans (opt (chr ":")) (mk_state b (colon ++ rest) cs)
        (mk_state (rev colon ++ b) rest cs).
Proof.
  intros colon b rest cs [-> | ->].
  - apply sp_rep_stop.
  - unfold opt. eapply (sp_rep_may (Some 1)); [discriminate | | | apply sp_rep_stop].
    + apply build_chr. reflexivity.
    + unfold pos. simpl. lia.
Qed.

Lemma line_feed_is_space : forall c,
  N.eqb (Chars.code c) 10 = true -> Chars.is_space c = true.
Proof.
  intros c H. apply N.eqb_eq in H. unfold Chars.is_space, Chars.in_range.
  now rewrite H.
Qed.

(** A match of the label pattern spells a label. *)
Lemma label_pattern_sound : forall labels text st',
  labels <> [] -> spans (label_pattern labels) (start text) st' ->
  labelled labels text.
Proof.
  intros labels text st' Hne H. unfold label_pattern in H. cbn [seqs] in H.
  seq_inv H s1 H1. apply spans_bol_inv in H1. destruct H1 as [-> _].
  seq_inv H s2 H2. apply spans_class_star in H2. destruct H2 as (w1 & R1 & F1).
  seq_inv H s3 H3. apply spans_group_inv in H3. destruct H3 as (s3' & H3 & ->).
  apply spans_alts in H3; [|assumption]. destruct H3 as (l & Hl & H3).
  apply spans_escape_ci in H3. destruct H3 as (l' & R2 & Fl).
  apply (GroupFacts.reaches_set_cap l' 1 s2 s2 s3') in R2.
  seq_inv H s4 H4. apply spans_class_star in H4. destruct H4 as (w2 & R3 & F2).
  seq_inv H s5 H5.
  assert (Hcolon : exists colon, (colon = [] \/ colon = [":"%char])
                                 /\ reaches colon s4 s5).
  { apply spans_opt_inv in H5. destruct H5 as [-> | H5].
    - exists []. split; [now left | apply ReFacts.reaches_refl].
    - apply spans_chr_inv in H5. destruct H5 as (x & rest & Ha & Hx & ->).
      apply Ascii.eqb_eq in Hx. subst x.
      exists [":"%char]. split; [now right | now apply reaches_chr]. }
  destruct Hcolon as (colon & Hc & R4).
  seq_inv H s6 H6. apply spans_class_star in H6. destruct H6 as (w3 & R5 & F3).
  apply spans_eol_inv in H. destruct H as [-> He].
  pose proof (ReFacts.reaches_trans _ _ _ _ _ R4 R5) as R45.
  pose proof (ReFacts.reaches_trans _ _ _ _ _ R3 R45) as R345.
  pose proof (ReFacts.reaches_trans _ _ _ _ _ R2 R345) as R2345.
  pose proof (ReFacts.reaches_trans _ _ _ _ _ R1 R2345) as [Rall _].
  unfold start in Rall. cbn [after] in Rall.
  unfold at_eol in He. destruct (after s6) as [|c [|c2 tl]] eqn:Ea; [| |discriminate].
  - exists l, w1, l', w2, colon, w3. rewrite Rall, app_nil_r.
    repeat split; auto.
  - exists l, w1, l', w2, colon, (w3 ++ [c]). rewrite Rall, <- !app_assoc.
    repeat split; auto.
    unfold all_space in *. rewrite forallb_app, F3. simpl.
    now rewrite (line_feed_is_space c He).
Qed.

(** Whatever spells a label is matched by the label pattern. *)
Lemma label_pattern_complete : forall labels text,
  labelled labels text -> exists st', spans (label_pattern labels) (start text) st'.
Proof.
  intros labels text (l & w1 & l' & w2 & colon & w3 & Hl & Ht & F1 & Fl & F2 & Hc & F3).
  rewrite <- (app_nil_r w3) in Ht.
  unfold start. rewrite Ht. unfold label_pattern. cbn [seqs].
  eexists.
  eapply sp_seq; [apply sp_bol; reflexivity|].
  eapply sp_seq; [apply build_class_star; exact F1|].
  eapply sp_seq.
  { apply sp_group. eapply build_alts; [exact Hl|].
    apply build_escape_ci. exact Fl. }
  unfold set_cap. cbn [before after caps].
  eapply sp_seq; [apply build_class_star; exact F2|].
  eapply sp_seq; [apply build_opt_colon; exact Hc|].
  eapply sp_seq; [apply build_class_star; exact F3|].
  apply sp_eol. reflexivity.
Qed.

(** After the start of the subject [^] matches nowhere. *)
Lemma search_from_bol : forall r a adv c b,
  search_from (Seq Bol r) adv (c :: b) a = None.
Proof.
  intros r. induction a as [|x a IH]; intros adv c b; simpl; [reflexivity|].
  apply IH.
Qed.

Lemma search_is_match : forall labels text,
  is_some (search (label_pattern labels) text) =
  is_some (match_ (label_pattern labels) text).
Proof.
  intros labels text. unfold search, match_, label_pattern. cbn [seqs].
  destruct (list_ascii_of_string text) as [|c a]; cbn [search_from].
  - destruct (match_here _ false _); reflexivity.
  - destruct (match_here _ false _); [reflexivity|].
    now rewrite search_from_bol.
Qed.

End LabelFacts.

Import LabelShape.

(** X17.  The label pattern accepts a text exactly when the text is one
    of the labels, in any case of its letters, with nothing around it but
    white space and at most one colon after it; searching a text for the
    pattern, as strategy 2 does, is the same test as matching it, as
    strategy 1 does. *)
Theorem label_pattern_language : forall labels text,
  labels <> [] ->
  (is_some (Re.match_ (label_pattern labels) text) = true <-> labelled labels text)
  /\ is_some (Re.search (label_pattern labels) text) =
     is_some (Re.match_ (label_pattern labels) text).
Proof.
  intros labels text Hne. split; [|apply LabelFacts.search_is_match].
  rewrite TightFacts.match_iff. split.
  - intros (st' & H). eapply LabelFacts.label_pattern_sound; eassumption.
  - apply LabelFacts.label_pattern_complete.
Qed.

Lemma label_pattern_language_witness :
  (is_some (Re.match_ (label_pattern stock_labels) " stock NO :") = true <->
   labelled stock_labels " stock NO :")
  /\ is_some (Re.search (label_pattern stock_labels) " stock NO :") =
     is_some (Re.match_ (label_pattern stock_labels) " stock NO :").
Proof.
  refine (label_pattern_language stock_labels " stock NO :" _). discriminate.
Defined.

(** ** The case of the letters of a label does not matter *)

Module CaseFacts.

Import Re ReTight LabelShape.

Section Twins.

Variables mr1 mr2 : matcher.
Hypothesis twins : forall st k1 k2, agree k1 k2 -> mr1 st k1 = mr2 st k2.

Lemma rep_min_same : forall n st k1 k2,
  agree k1 k2 -> rep_min n mr1 st k1 = rep_min n mr2 st k2.
Proof.
  induction n as [|n IH]; intros st k1 k2 H; simpl; [apply H|].
  apply twins. intros s. now apply IH.
Qed.

Lemma rep_max_same : forall n st k1 k2,
  agree k1 k2 -> rep_max n mr1 st k1 = rep_max n mr2 st k2.
Proof.
  induction n as [|n IH]; intros st k1 k2 H; simpl; [apply H|].
  rewrite (twins st _ (fun st1 => if (pos st <? pos st1)%nat
                                  then rep_max n mr2 st1 k2 else None)).
  - now rewrite H.
  - intros s. destruct (pos st <? pos s)%nat; [now apply IH | reflexivity].
Qed.

End Twins.

Lemma run_same : forall r1 r2,
  same r1 r2 -> forall st k1 k2, agree k1 k2 -> run r1 st k1 = run r2 st k2.
Proof.
  induction r1 as [|p|a IHa b IHb|a IHa b IHb|lo hi a IH|n a IH| | |];
    intros r2 Hs; destruct r2; simpl in Hs; try contradiction;
    intros st k1 k2 Hk; cbn [run].
  - apply Hk.
  - destruct (after st) as [|c rest]; [reflexivity|].
    rewrite Hs. destruct (p0 c); [apply Hk | reflexivity].
  - destruct Hs as [Ha Hb]. apply (IHa _ Ha).
    intros s. now apply (IHb _ Hb).
  - destruct Hs as [Ha Hb].
    rewrite (IHa _ Ha st k1 k2 Hk), (IHb _ Hb st k1 k2 Hk). reflexivity.
  - destruct Hs as (<- & <- & Ha).
    apply (rep_min_same _ _ (IH _ Ha)). intros s.
    now apply (rep_max_same _ _ (IH _ Ha)).
  - destruct Hs as [<- Ha]. apply (IH _ Ha). intros s. apply Hk.
  - destruct (before st); [apply Hk | reflexivity].
  - destruct (at_eol st); [apply Hk | reflexivity].
  - destruct (at_word_boundary st); [apply Hk | reflexivity].
Qed.

Lemma same_refl : forall r, same r r.
Proof. induction r; simpl; auto. Qed.

Lemma match_here_same : forall r1 r2 adv st,
  same r1 r2 -> match_here r1 adv st = match_here r2 adv st.
Proof.
  intros r1 r2 adv st H. unfold match_here.
  now rewrite (run_same r1 r2 H st _ (accept adv st) (fun s => eq_refl)).
Qed.

Lemma search_from_same : forall r1 r2 a adv b,
  same r1 r2 -> search_from r1 adv b a = search_from r2 adv b a.
Proof.
  intros r1 r2 a. induction a as [|c a IH]; intros adv b H; simpl;
    rewrite (match_here_same r1 r2 adv _ H); [reflexivity|].
  destruct (match_here r2 adv _); [reflexivity | now apply IH].
Qed.

Lemma search_same : forall r1 r2 s, same r1 r2 -> search r1 s = search r2 s.
Proof. intros. now apply search_from_same. Qed.

Lemma match_same : forall r1 r2 s, same r1 r2 -> match_ r1 s = match_ r2 s.
Proof. intros. now apply match_here_same. Qed.

Lemma split_item1_same : forall r1 r2 s,
  same r1 r2 -> split_item1 r1 s = split_item1 r2 s.
Proof.
  intros r1 r2 s H. unfold split_item1. rewrite (search_same r1 r2 s H).
  destruct (search r2 s) as [[st0 st1]|]; [|reflexivity].
  now rewrite (search_from_same r1 r2 _ _ _ H).
Qed.

Lemma escape_ci_same : forall a b, same_label a b -> same (escape_ci a) (escape_ci b).
Proof.
  unfold same_label, same_letters.
  induction a as [|x a IH]; intros [|y b] H; simpl in *; try discriminate; [exact I|].
  injection H as Hx Hl. split; [|now apply IH].
  intros c. unfold Chars.eq_ci. now rewrite Hx.
Qed.

Lemma alts_same : forall ls ls',
  Forall2 same_label ls ls' ->
  same (alts (map escape_ci ls)) (alts (map escape_ci ls')).
Proof.
  intros ls ls' H. induction H as [|a b ls ls' Hab Hl IH]; [exact I|].
  destruct Hl as [|a2 b2 ls ls' Hab2 Hl].
  - now apply escape_ci_same.
  - cbn [map alts] in *. split; [now apply escape_ci_same | exact IH].
Qed.

Lemma label_pattern_same : forall ls ls',
  Forall2 same_label ls ls' -> same (label_pattern ls) (label_pattern ls').
Proof.
  intros ls ls' H. unfold label_pattern. cbn [seqs same].
  repeat split; auto. now apply alts_same.
Qed.

Lemma word_pattern_same : forall a b,
  same_label a b -> same (word_pattern a) (word_pattern b).
Proof.
  intros a b H. unfold word_pattern. cbn [seqs same].
  repeat split; auto. now apply escape_ci_same.
Qed.

Lemma split_pattern_same : forall a b,
  same_label a b -> same (split_pattern a) (split_pattern b).
Proof.
  intros a b H. unfold split_pattern. cbn [seqs same].
  repeat split; auto. now apply escape_ci_same.
Qed.

Lemma first_some_forall2 : forall (A B : Type) (R : A -> A -> Prop)
    (f : A -> option B) l l',
  (forall a b, R a b -> f a = f b) -> Forall2 R l l' ->
  first_some f l = first_some f l'.
Proof.
  intros A B R f l l' Hf H. induction H as [|a b l l' Hab _ IH]; [reflexivity|].
  simpl. rewrite (Hf a b Hab), IH. reflexivity.
Qed.

Lemma strategy1_same : forall d ls ls',
  Forall2 same_label ls ls' -> strategy1 d ls = strategy1 d ls'.
Proof.
  intros d ls ls' H. unfold strategy1.
  induction (find_all ["dt"] d) as [|e l IH]; [reflexivity|].
  simpl. unfold strategy1_step at 1 3, dt_matches.
  rewrite (match_same _ _ _ (label_pattern_same ls ls' H)), IH. reflexivity.
Qed.

Lemma strategy2_same : forall d ls ls',
  Forall2 same_label ls ls' -> strategy2 d ls = strategy2 d ls'.
Proof.
  intros d ls ls' H. unfold strategy2, find_all_string. f_equal.
  apply filter_ext. intros s.
  now rewrite (search_same _ _ _ (label_pattern_same ls ls' H)).
Qed.

Lemma strategy3_same : forall d ls ls',
  Forall2 same_label ls ls' -> strategy3 d ls = strategy3 d ls'.
Proof.
  intros d ls ls' H. unfold strategy3.
  induction (find_all _ d) as [|e l IH]; [reflexivity|].
  simpl. rewrite IH. unfold strategy3_step.
  rewrite (first_some_forall2 _ _ same_label _ ls ls'); [reflexivity| |exact H].
  intros a b Hab. unfold strategy3_label.
  now rewrite (search_same _ _ _ (word_pattern_same a b Hab)),
              (split_item1_same _ _ _ (split_pattern_same a b Hab)).
Qed.

End CaseFacts.

(** X18.  The extractor does not look at the case of the letters of the
    labels it is given: two label lists that differ in the case of their
    letters only give the same value on every document. *)
Theorem find_labeled_value_ignores_label_case : forall d labels labels',
  Forall2 same_label labels labels' ->
  find_labeled_value d labels = find_labeled_value d labels'.
Proof.
  intros d labels labels' H. unfold find_labeled_value.
  now rewrite (CaseFacts.strategy1_same d _ _ H),
              (CaseFacts.strategy2_same d _ _ H),
              (CaseFacts.strategy3_same d _ _ H).
Qed.

Lemma find_labeled_value_ignores_label_case_witness :
  find_labeled_value Samples.stock_page ["STOCK no"; "lot #"] =
  find_labeled_value Samples.stock_page ["Stock No"; "Lot #"].
Proof.
  apply find_labeled_value_ignores_label_case.
  repeat constructor.
Defined.

(** ** Money normalisation, lines 112-119 *)

Module MoneyFacts.

Import Re ReRel ReTight TightFacts LabelFacts.

Lemma money_classes : classes_within money_class money.
Proof.
  unfold money, money_class. cbn. repeat split; intros c H; rewrite H;
    rewrite ?orb_true_r; reflexivity.
Qed.

Lemma existsb_split : forall (p : ascii -> bool) l,
  existsb p l = true -> exists pre c rest, l = pre ++ c :: rest /\ p c = true.
Proof.
  intros p. induction l as [|x l IH]; intros H; simpl in H; [discriminate|].
  destruct (p x) eqn:E.
  - exists [], x, l. auto.
  - destruct (IH H) as (pre & c & rest & -> & Hc). exists (x :: pre), c, rest. auto.
Qed.

Lemma existsb_in : forall (p : ascii -> bool) l c,
  In c l -> p c = true -> existsb p l = true.
Proof. intros p l c Hin Hc. apply existsb_exists. eauto. Qed.

(** A match of the money pattern holds a digit. *)
Lemma money_match_digit : forall st st',
  spans money st st' ->
  exists w, reaches w st st' /\ existsb Chars.is_digit w = true.
Proof.
  intros st st' H. unfold money in H. cbn [seqs] in H.
  seq_inv H s1 H1. destruct (spans_forward _ _ _ H1) as (wa & Ra).
  seq_inv H s2 H2. destruct (spans_forward _ _ _ H2) as (wb & Rb).
  seq_inv H s3 H3. apply spans_rep_must_inv in H3.
  destruct H3 as (s3' & Hd & H3).
  apply spans_chr_inv in Hd. destruct Hd as (c & rest & Ha & Hc & ->).
  destruct (spans_forward _ _ _ H3) as (wc & Rc).
  destruct (spans_forward _ _ _ H) as (wd & Rd).
  exists (wa ++ wb ++ [c] ++ wc ++ wd). split.
  - repeat (eapply ReFacts.reaches_trans; [eassumption|]).
    eapply ReFacts.reaches_trans; [exact (reaches_chr c rest s2 Ha)|].
    eapply ReFacts.reaches_trans; eassumption.
  - rewrite !existsb_app. simpl. rewrite Hc. now rewrite !orb_true_r.
Qed.

(** At a digit the money pattern matches. *)
Lemma money_at_digit : forall b c rest,
  Chars.is_digit c = true ->
  spans money (mk_state b (c :: rest) []) (mk_state (c :: b) rest []).
Proof.
  intros b c rest Hc. unfold money. cbn [seqs].
  eapply sp_seq; [apply sp_rep_stop|].
  eapply sp_seq; [apply sp_rep_stop|].
  eapply sp_seq.
  { eapply sp_rep_must; [apply build_chr; exact Hc | apply sp_rep_stop]. }
  eapply sp_seq; apply sp_rep_stop.
Qed.

Lemma search_money_none : forall v,
  has_digit v = false -> search money v = None.
Proof.
  intros v H. destruct (search money v) as [f|] eqn:E; [|reflexivity].
  exfalso. unfold search in E. apply search_from_tight in E.
  destruct E as (pre & suf & Hv & Hf & Hs).
  apply money_match_digit in Hs. destruct Hs as (w & [Hw _] & Hd).
  rewrite Hf in Hw. cbn [after] in Hw.
  unfold has_digit in H. rewrite Hv, Hw, !existsb_app, Hd in H.
  rewrite orb_true_r in H. discriminate.
Qed.

Lemma search_money_some : forall v,
  has_digit v = true -> search money v <> None.
Proof.
  intros v H. unfold has_digit in H. apply existsb_split in H.
  destruct H as (pre & c & rest & Hv & Hc).
  unfold search. rewrite Hv.
  apply (search_from_complete money pre (c :: rest) [] (mk_state (c :: rev pre ++ []) rest [])).
  now apply money_at_digit.
Qed.

(** The white space of a clean text is the plain space. *)
Lemma clean_from_spaces : forall s b c,
  clean_from b s = true -> In c (list_ascii_of_string s) ->
  Chars.is_space c = true -> c = " "%char.
Proof.
  induction s as [|x s IH]; intros b c H Hin Hc; simpl in *; [contradiction|].
  destruct (Chars.is_space x) eqn:Ex.
  - apply andb_prop in H. destruct H as [H H2]. apply andb_prop in H.
    destruct H as [H1 _]. destruct Hin as [<-|Hin].
    + apply Ascii.eqb_eq in H1. now subst.
    + eapply IH; eassumption.
  - destruct Hin as [<-|Hin]; [congruence | eapply IH; eassumption].
Qed.

Lemma in_visible : forall s c,
  In c (visible s) <-> In c (list_ascii_of_string s) /\ Chars.is_space c = false.
Proof.
  intros s c. unfold visible. rewrite filter_In.
  now rewrite negb_true_iff.
Qed.

(** A character of a cleaned text is the plain space or a character of the
    text that is not white space. *)
Lemma clean_text_chars : forall s c,
  In c (list_ascii_of_string (clean_text s)) ->
  c = " "%char \/ (In c (list_ascii_of_string s) /\ Chars.is_space c = false).
Proof.
  intros s c Hin. destruct (Chars.is_space c) eqn:Hc.
  - left. pose proof (clean_text_is_clean s) as H.
    destruct (clean_text s) as [|x t] eqn:E; [contradiction|].
    eapply clean_from_spaces; eassumption.
  - right. split; [|reflexivity].
    assert (Hv : In c (visible s)).
    { rewrite <- visible_clean. apply in_visible. auto. }
    now apply in_visible in Hv.
Qed.

Lemma normalize_money_shape : forall v,
  if has_digit v
  then money_only (clean_text (normalize_money v)) = true
       /\ has_digit (clean_text (normalize_money v)) = true
  else normalize_money v = v.
Proof.
  intros v. unfold normalize_money. destruct (has_digit v) eqn:Hd.
  - pose proof (search_money_some v Hd) as Hs.
    destruct (search money v) as [f|] eqn:E; [|contradiction].
    unfold search in E. apply search_from_tight in E.
    destruct E as (_ & _ & _ & _ & Hsp).
    destruct (spans_reaches money_class _ _ _ Hsp money_classes) as (w & Hw & Hall).
    destruct (money_match_digit _ _ Hsp) as (w' & Hw' & Hdig).
    assert (Hww : w' = w).
    { pose proof (ReFacts.text_between_reaches _ _ _ Hw) as E1.
      rewrite (ReFacts.text_between_reaches _ _ _ Hw') in E1.
      apply (f_equal list_ascii_of_string) in E1.
      now rewrite !list_ascii_of_string_of_list_ascii in E1. }
    subst w'.
    unfold group0. rewrite (ReFacts.text_between_reaches _ _ _ Hw).
    split.
    + unfold money_only. apply forallb_forall. intros c Hc.
      apply clean_text_chars in Hc. destruct Hc as [->|[Hc Hns]]; [reflexivity|].
      rewrite list_ascii_of_string_of_list_ascii in Hc.
      rewrite forallb_forall in Hall. specialize (Hall c Hc).
      unfold money_class in Hall. unfold is_money_char. rewrite Hns in Hall.
      rewrite orb_false_r in Hall.
      rewrite (Ascii.eqb_sym c "$"), (Ascii.eqb_sym c ","), (Ascii.eqb_sym c ".").
      apply orb_true_iff. left. exact Hall.
    + unfold has_digit. apply existsb_exists in Hdig. destruct Hdig as (c & Hc & Hcd).
      apply (existsb_in _ _ c); [|assumption].
      assert (Hv : In c (visible (clean_text (string_of_list_ascii w)))).
      { rewrite visible_clean. apply in_visible.
        rewrite list_ascii_of_string_of_list_ascii.
        split; [assumption | now apply StockFacts.digit_not_space]. }
      now apply in_visible in Hv.
  - now rewrite (search_money_none v Hd).
Qed.

End MoneyFacts.

(** X19.  A stored cost is the extracted text itself when that text has no
    digit; otherwise it is made of digits, "$", ",", "." and single spaces
    only, and has a digit: the words around an amount never get into the
    record. *)
Theorem stored_cost_shape : forall d url,
  let r := parse_vehicle d url in
  let acv := find_labeled_value d ["ACV"; "Actual Cash Value"] in
  let repair :=
    find_labeled_value d ["Repair Cost"; "Estimated Repair Cost"; "Est. Repair"] in
  (if has_digit acv
   then money_only (ACV_Cost r) = true /\ has_digit (ACV_Cost r) = true
   else ACV_Cost r = acv)
  /\ (if has_digit repair
      then money_only (Repair_Cost r) = true /\ has_digit (Repair_Cost r) = true
      else Repair_Cost r = repair).
Proof.
  intros d url. cbv zeta. unfold parse_vehicle.
  destruct (title_fallback _ _ _ _) as [[y mk] mo]. cbn [ACV_Cost Repair_Cost].
  split.
  - pose proof (MoneyFacts.normalize_money_shape
                  (find_labeled_value d ["ACV"; "Actual Cash Value"])) as H.
    destruct (has_digit _); [exact H|].
    rewrite H. apply clean_text_find_labeled_value.
  - pose proof (MoneyFacts.normalize_money_shape
                  (find_labeled_value d
                     ["Repair Cost"; "Estimated Repair Cost"; "Est. Repair"])) as H.
    destruct (has_digit _); [exact H|].
    rewrite H. apply clean_text_find_labeled_value.
Qed.

(** ** Values taken from the page title, lines 99-106 *)

Module TitleFacts.

Import Re ReRel ReTight TightFacts LabelFacts.

Lemma spans_keeps_caps : forall r st st',
  spans r st st' -> groupless r -> caps st' = caps st.
Proof.
  intros r st st' H. induction H; intros G; simpl in G; try reflexivity;
    try contradiction.
  - destruct G as [G1 G2]. now rewrite IHspans2, IHspans1.
  - destruct G as [G1 G2]. auto.
  - destruct G as [G1 G2]. auto.
  - now rewrite IHspans2, IHspans1.
  - now rewrite IHspans2, IHspans1.
Qed.

Lemma alpha_not_space : forall c,
  Chars.is_alpha_az c = true -> Chars.is_space c = false.
Proof.
  intros c. unfold Chars.is_alpha_az, Chars.is_upper_az, Chars.is_lower_az,
    Chars.is_space, Chars.in_range.
  intros H. apply orb_prop in H.
  repeat rewrite orb_false_iff.
  destruct H as [H|H]; apply andb_prop in H; destruct H as [H1 H2];
    apply N.leb_le in H1, H2;
    repeat split;
    try (apply andb_false_iff;
         first [left; apply N.leb_gt; lia | right; apply N.leb_gt; lia]);
    try (apply N.eqb_neq; lia).
Qed.

(** What a match of the title pattern is made of. *)
Lemma title_match_parts : forall st st',
  spans title_re st st' ->
  exists a b c d e w t2 t3,
    reaches (a :: b :: c :: d :: e :: w) st st'
    /\ ((a = "1" /\ b = "9") \/ (a = "2" /\ b = "0"))%char
    /\ Chars.is_digit c = true /\ Chars.is_digit d = true
    /\ Chars.is_space e = true
    /\ lookup 2 (caps st') = Some t2 /\ all_letters t2 = true
    /\ lookup 3 (caps st') = Some t3 /\ model_chars_only t3 = true.
Proof.
  intros st st' H. unfold title_re in H. cbn [seqs] in H.
  seq_inv H s0 H0. apply spans_wordb_inv in H0. destruct H0 as [-> _].
  seq_inv H s1 H1. apply spans_group_inv in H1. destruct H1 as (s1' & H1 & ->).
  assert (Hab : exists a b,
             reaches [a; b] st s1'
             /\ ((a = "1" /\ b = "9") \/ (a = "2" /\ b = "0"))%char).
  { apply spans_alt_inv in H1.
    destruct H1 as [H1|H1]; seq_inv H1 sa Ha;
      apply spans_chr_inv in Ha; destruct Ha as (a & ra & Ea & Pa & ->);
      apply spans_chr_inv in H1; destruct H1 as (b & rb & Eb & Pb & ->);
      apply Ascii.eqb_eq in Pa, Pb; exists a, b;
      (split; [|subst a b; auto]);
      apply (ReFacts.reaches_trans [_] [_] _ _ _ (reaches_chr _ _ _ Ea)
               (reaches_chr _ _ _ Eb)). }
  destruct Hab as (a & b & Rab & Hab).
  seq_inv H s2 H2. unfold exactly in H2.
  apply spans_rep_must_inv in H2. destruct H2 as (sc & Hc & H2).
  apply spans_chr_inv in Hc. destruct Hc as (c & rc & Ec & Pc & ->).
  cbn [option_map pred] in H2.
  apply spans_rep_must_inv in H2. destruct H2 as (sd & Hd & H2).
  apply spans_chr_inv in Hd. destruct Hd as (d & rd & Ed & Pd & ->).
  cbn [option_map pred] in H2. apply spans_rep_done in H2. subst s2.
  seq_inv H s3 H3. apply spans_wordb_inv in H3. destruct H3 as [-> _].
  seq_inv H s4 H4. unfold plus in H4.
  apply spans_rep_must_inv in H4. destruct H4 as (se & He & H4).
  apply spans_chr_inv in He. destruct He as (e & re & Ee & Pe & ->).
  destruct (spans_forward _ _ _ H4) as (w4 & R4).
  seq_inv H s5 H5. apply spans_group_inv in H5. destruct H5 as (s5' & H5 & ->).
  destruct (spans_reaches Chars.is_alpha_az _ _ _ H5 (fun c E => E))
    as (w5 & R5 & A5).
  seq_inv H s6 H6. destruct (spans_forward _ _ _ H6) as (w6 & R6).
  pose proof (spans_keeps_caps _ _ _ H6 I) as C6.
  apply spans_group_inv in H. destruct H as (s7 & H7 & ->).
  destruct (spans_reaches is_model_char _ _ _ H7 (fun c E => E))
    as (w7 & R7 & A7).
  pose proof (spans_keeps_caps _ _ _ H7 I) as C7.
  exists a, b, c, d, e, (w4 ++ w5 ++ w6 ++ w7).
  exists (text_between s4 s5'), (text_between s6 s7).
  split.
  { change (a :: b :: c :: d :: e :: w4 ++ w5 ++ w6 ++ w7)
      with ([a; b] ++ [c] ++ [d] ++ [e] ++ w4 ++ w5 ++ w6 ++ w7).
    eapply ReFacts.reaches_trans; [exact Rab|].
    eapply ReFacts.reaches_trans; [exact (reaches_chr _ _ _ Ec)|].
    eapply ReFacts.reaches_trans; [exact (reaches_chr _ _ _ Ed)|].
    eapply ReFacts.reaches_trans; [exact (reaches_chr _ _ _ Ee)|].
    eapply ReFacts.reaches_trans; [exact R4|].
    eapply ReFacts.reaches_trans; [exact R5|].
    eapply ReFacts.reaches_trans; [exact R6|].
    exact R7. }
  split; [exact Hab|]. split; [exact Pc|]. split; [exact Pd|].
  split; [exact Pe|].
  split; [cbn [set_cap caps lookup Nat.eqb]; rewrite C7, C6; reflexivity|].
  split.
  { unfold all_letters. rewrite (ReFacts.text_between_reaches _ _ _ R5).
    now rewrite list_ascii_of_string_of_list_ascii. }
  split; [reflexivity|].
  unfold model_chars_only. rewrite (ReFacts.text_between_reaches _ _ _ R7).
  now rewrite list_ascii_of_string_of_list_ascii.
Qed.

Lemma found_parts : forall t mt,
  search title_re t = Some mt ->
  is_title_year (year_of_match mt) = true
  /\ all_letters (group_text mt 2) = true
  /\ model_chars_only (group_text mt 3) = true.
Proof.
  intros t mt H. unfold search in H. apply search_from_tight in H.
  destruct H as (_ & _ & _ & _ & H). apply title_match_parts in H.
  destruct H as (a & b & c & d & e & w & t2 & t3 & R & Hab & Pc & Pd & Pe
                 & L2 & A2 & L3 & A3).
  split; [|split].
  - unfold year_of_match, group0. rewrite (ReFacts.text_between_reaches _ _ _ R).
    assert (Na : Chars.is_space a = false /\ Chars.is_space b = false).
    { destruct Hab as [[-> ->]|[-> ->]]; split; reflexivity. }
    destruct Na as [Na Nb].
    unfold Str.first_token. cbn [string_of_list_ascii Str.lstrip].
    rewrite Na. cbn [Str.take_token].
    rewrite Na, Nb, (StockFacts.digit_not_space _ Pc),
      (StockFacts.digit_not_space _ Pd), Pe.
    unfold is_title_year. cbn [list_ascii_of_string].
    rewrite Pc, Pd. destruct Hab as [[-> ->]|[-> ->]]; reflexivity.
  - unfold group_text, group. now rewrite L2.
  - unfold group_text, group. now rewrite L3.
Qed.

Lemma letters_no_space : forall s, all_letters s = true -> Norm.no_space s = true.
Proof.
  unfold all_letters, Norm.no_space. intros s H.
  apply forallb_forall. intros c Hc. rewrite forallb_forall in H.
  now rewrite (alpha_not_space c (H c Hc)).
Qed.

Lemma title_year_no_space : forall s, is_title_year s = true -> Norm.no_space s = true.
Proof.
  unfold is_title_year, Norm.no_space. intros s H.
  destruct (list_ascii_of_string s) as [|a [|b [|c [|d [|x l]]]]]; try discriminate.
  apply andb_prop in H. destruct H as [H Pd]. apply andb_prop in H.
  destruct H as [H Pc]. cbn [forallb].
  rewrite (StockFacts.digit_not_space _ Pc), (StockFacts.digit_not_space _ Pd).
  apply orb_prop in H.
  destruct H as [H|H]; apply andb_prop in H; destruct H as [Ha Hb];
    apply Ascii.eqb_eq in Ha, Hb; subst; reflexivity.
Qed.

Lemma model_chars_clean_strip : forall s,
  model_chars_only s = true -> model_chars_only (clean_text (Str.strip s)) = true.
Proof.
  unfold model_chars_only. intros s H. apply forallb_forall. intros c Hc.
  apply MoneyFacts.clean_text_chars in Hc. destruct Hc as [->|Hc]; [reflexivity|].
  apply MoneyFacts.in_visible in Hc. unfold Str.strip in Hc.
  rewrite visible_rstrip, visible_lstrip in Hc.
  apply MoneyFacts.in_visible in Hc. rewrite forallb_forall in H.
  now apply H.
Qed.

End TitleFacts.

(** X20.  A year that is not found under its label is empty or comes from the
    title as "19" or "20" followed by two digits. *)
Theorem year_from_title_shape : forall d url,
  find_labeled_value d ["Year"] = "" ->
  Year (parse_vehicle d url) = ""
  \/ is_title_year (Year (parse_vehicle d url)) = true.
Proof.
  intros d url Hy. unfold parse_vehicle. rewrite Hy. unfold title_fallback.
  destruct (negb _ && _)%bool; [|now left].
  destruct (Re.search title_re (title_text d)) as [mt|] eqn:E; [|now left].
  cbn [Year]. right. unfold Str.or_else. cbn [Str.truthy Str.is_empty negb].
  destruct (TitleFacts.found_parts _ _ E) as (Hyr & _ & _).
  now rewrite (clean_text_no_space _ (TitleFacts.title_year_no_space _ Hyr)).
Qed.

Lemma year_from_title_shape_witness :
  find_labeled_value Samples.titled_page ["Year"] = ""
  /\ (Year (parse_vehicle Samples.titled_page DETAIL_URL) = ""
      \/ is_title_year (Year (parse_vehicle Samples.titled_page DETAIL_URL)) = true).
Proof.
  split; [vm_compute; reflexivity|].
  apply (year_from_title_shape Samples.titled_page DETAIL_URL).
  vm_compute; reflexivity.
Defined.

(** X21.  A make that is not found under its label is made of the letters
    A-Z and a-z only (it is empty, or the word after the year in the
    title). *)
Theorem make_from_title_shape : forall d url,
  find_labeled_value d ["Make"] = "" ->
  all_letters (Make (parse_vehicle d url)) = true.
Proof.
  intros d url Hm. unfold parse_vehicle. rewrite Hm. unfold title_fallback.
  destruct (negb _ && _)%bool; [|reflexivity].
  destruct (Re.search title_re (title_text d)) as [mt|] eqn:E; [|reflexivity].
  cbn [Make Str.truthy Str.is_empty negb].
  destruct (TitleFacts.found_parts _ _ E) as (_ & Hmk & _).
  now rewrite (clean_text_no_space _ (TitleFacts.letters_no_space _ Hmk)).
Qed.

Lemma make_from_title_shape_witness :
  find_labeled_value Pages.title_only_page ["Make"] = ""
  /\ all_letters (Make (parse_vehicle Pages.title_only_page DETAIL_URL)) = true.
Proof.
  split; [vm_compute; reflexivity|].
  apply (make_from_title_shape Pages.title_only_page DETAIL_URL).
  vm_compute; reflexivity.
Defined.

(** X22.  A model that is not found under its label is made of letters,
    digits, "-" and the plain space only (it is empty, or what follows the
    make in the title up to the first other character). *)
Theorem model_from_title_shape : forall d url,
  find_labeled_value d ["Model"] = "" ->
  model_chars_only (Model (parse_vehicle d url)) = true.
Proof.
  intros d url Hm. unfold parse_vehicle. rewrite Hm. unfold title_fallback.
  destruct (negb _ && _)%bool; [|reflexivity].
  destruct (Re.search title_re (title_text d)) as [mt|] eqn:E; [|reflexivity].
  cbn [Model Str.truthy Str.is_empty negb].
  destruct (TitleFacts.found_parts _ _ E) as (_ & _ & Hmo).
  now apply TitleFacts.model_chars_clean_strip.
Qed.

Lemma model_from_title_shape_witness :
  find_labeled_value Samples.titled_page ["Model"] = ""
  /\ model_chars_only (Model (parse_vehicle Samples.titled_page DETAIL_URL)) = true.
Proof.
  split; [vm_compute; reflexivity|].
  apply (model_from_title_shape Samples.titled_page DETAIL_URL).
  vm_compute; reflexivity.
Defined.
